(** * The router cache of aibrix: pod/model index, request traces, flush

    A shallow embedding of package [cache]: the [Cache] struct, the informer
    event handlers that maintain the pod/model index, [AddRequestTrace],
    [writeRequestTraceToStorage] with the ticker that drives it, and
    [AddSubscriber]/[aggregateMetrics]. The trace windows and pending
    counters that the package's test file exercises are modelled from the
    specification in [TraceWindow].

    Conventions.
    - A Go [map[K]V] that [NewCache] allocates is a [gmap K V]; a map field
      that [NewCache] leaves at its zero value is an [option (gmap K V)],
      [None] being the nil map (reads find nothing, a write panics).
    - [*v1.Pod] is the pod value: the cache never writes through the pointer.
    - Every method that takes [c.mu] runs as one state transformer
      [Cache -> Cache]; the lock itself is not part of the state.
    - [klog] calls and [debugInfo] only read the cache and are left out.
    - [int] and [int64] are [Z] with the wrap-around written out.
    - The float64 arithmetic of the bucket index is IEEE-754 rounding over
      exact integers; what the math library approximates and what the
      processor decides are the two fields of a [Platform]. *)

From stdpp Require Import gmap strings list fin_maps pretty.
From Stdlib Require Import ZArith Lia Ascii.

Open Scope Z_scope.
Set Warnings "-clear-no-such-hyp".
Set Default Proof Using "Type".
Set Default Goal Selector "!".

(** ** Kubernetes objects, as far as the cache reads them *)

Module v1.
Record Pod := mkPod {
  Name : string;
  Namespace : string;
  Labels : gmap string string;
  PodIP : string;   (* Status.PodIP *)
  Phase : string    (* Status.Phase *)
}.
End v1.

Module modelv1alpha1.
Record ModelAdapter := mkModelAdapter {
  Name : string;
  Namespace : string;
  Instances : list string;   (* Status.Instances *)
  Phase : string             (* Status.Phase *)
}.
End modelv1alpha1.

Module metrics.
(** [metrics.MetricSubscriber]: the cache only calls [SubscribedMetrics]. *)
Record MetricSubscriber := mkSubscriber {
  SubscribedMetrics : list string
}.

(** [metrics.MetricValue]; a [float64] is kept as its IEEE-754 bit pattern. *)
Inductive MetricValue :=
| SimpleMetricValue (value : Z)
| HistogramMetricValue (sum count : Z) (buckets : list (string * Z))
| PrometheusMetricValue (result : string).
End metrics.

(** Handles of the two external services; [None] is the nil pointer / nil
    interface. *)
Record RedisClient := mkRedisClient { redisAddr : string }.
Record PrometheusAPI := mkPrometheusAPI { prometheusEndpoint : string }.

(** ** The cache *)

Record Cache := mkCache {
  redisClient : option RedisClient;
  prometheusApi : option PrometheusAPI;
  initialized : bool;
  subscribers : list metrics.MetricSubscriber;
  metrics : option (gmap string string);
  ModelMetrics : option (gmap string (gmap string string));
  Pods : gmap string v1.Pod;
  PodMetrics : gmap string (gmap string metrics.MetricValue);
  PodToModelMapping : gmap string (gset string);            (* pod_name: set of model_name *)
  ModelToPodMapping : gmap string (gmap string v1.Pod);     (* model_name: pod_name: pod *)
  requestTrace : gmap string (gmap string Z)                (* model_name: "i:o": request_count *)
}.

Definition modelIdentifier : string := "model.aibrix.ai/name".
Definition podPort : Z := 8000.
Definition defaultPodMetricRefreshIntervalInMS : Z := 50.
Definition expireWriteRequestTraceIntervalInMins : Z := 10.
Definition keyWriteRequestTraceIntervalInSeconds : string := "meta_interval_sec".
Definition writeRequestTraceIntervalInSeconds : Z := 10.
Definition keyPrecisionRequestTrace : string := "meta_precision".
Definition keyVersionRequestTrace : string := "meta_v".
Definition versionRequestTrace : Z := 2.

(** Field assignments [c.f = v]. *)
Definition set_subscribers (v : list metrics.MetricSubscriber) (c : Cache) : Cache :=
  mkCache (redisClient c) (prometheusApi c) (initialized c) v (metrics c)
          (ModelMetrics c) (Pods c) (PodMetrics c) (PodToModelMapping c)
          (ModelToPodMapping c) (requestTrace c).

Definition set_metrics (v : option (gmap string string)) (c : Cache) : Cache :=
  mkCache (redisClient c) (prometheusApi c) (initialized c) (subscribers c) v
          (ModelMetrics c) (Pods c) (PodMetrics c) (PodToModelMapping c)
          (ModelToPodMapping c) (requestTrace c).

Definition set_Pods (v : gmap string v1.Pod) (c : Cache) : Cache :=
  mkCache (redisClient c) (prometheusApi c) (initialized c) (subscribers c) (metrics c)
          (ModelMetrics c) v (PodMetrics c) (PodToModelMapping c)
          (ModelToPodMapping c) (requestTrace c).

Definition set_PodMetrics (v : gmap string (gmap string metrics.MetricValue)) (c : Cache) : Cache :=
  mkCache (redisClient c) (prometheusApi c) (initialized c) (subscribers c) (metrics c)
          (ModelMetrics c) (Pods c) v (PodToModelMapping c)
          (ModelToPodMapping c) (requestTrace c).

Definition set_PodToModelMapping (v : gmap string (gset string)) (c : Cache) : Cache :=
  mkCache (redisClient c) (prometheusApi c) (initialized c) (subscribers c) (metrics c)
          (ModelMetrics c) (Pods c) (PodMetrics c) v
          (ModelToPodMapping c) (requestTrace c).

Definition set_ModelToPodMapping (v : gmap string (gmap string v1.Pod)) (c : Cache) : Cache :=
  mkCache (redisClient c) (prometheusApi c) (initialized c) (subscribers c) (metrics c)
          (ModelMetrics c) (Pods c) (PodMetrics c) (PodToModelMapping c)
          v (requestTrace c).

Definition set_requestTrace (v : gmap string (gmap string Z)) (c : Cache) : Cache :=
  mkCache (redisClient c) (prometheusApi c) (initialized c) (subscribers c) (metrics c)
          (ModelMetrics c) (Pods c) (PodMetrics c) (PodToModelMapping c)
          (ModelToPodMapping c) v.

(** The composite literal of [NewCache]: [subscribers], [metrics] and
    [ModelMetrics] are not listed there and keep their zero value. *)
Definition NewCache (redis : option RedisClient) (prom : option PrometheusAPI) : Cache :=
  {| redisClient := redis;
     prometheusApi := prom;
     initialized := true;
     subscribers := [];
     metrics := None;
     ModelMetrics := None;
     Pods := ∅;
     PodMetrics := ∅;
     PodToModelMapping := ∅;
     ModelToPodMapping := ∅;
     requestTrace := ∅ |}.

(** ** Pod/model index *)

Definition addPodAndModelMapping (podName modelName : string) (c : Cache) : Cache :=
  match Pods c !! podName with
  | None => c   (* "pod %s does not exist in internal-cache" *)
  | Some pod =>
    let c1 :=
      match PodToModelMapping c !! podName with
      | None => set_PodToModelMapping (<[podName := {[modelName]}]> (PodToModelMapping c)) c
      | Some models =>
        set_PodToModelMapping (<[podName := {[modelName]} ∪ models]> (PodToModelMapping c)) c
      end in
    match ModelToPodMapping c1 !! modelName with
    | None =>
      set_ModelToPodMapping (<[modelName := {[podName := pod]}]> (ModelToPodMapping c1)) c1
    | Some pods =>
      set_ModelToPodMapping (<[modelName := <[podName := pod]> pods]> (ModelToPodMapping c1)) c1
    end
  end.

Definition deletePodAndModelMapping (podName modelName : string) (c : Cache) : Cache :=
  let c1 :=
    match PodToModelMapping c !! podName with
    | Some models =>
      set_PodToModelMapping (<[podName := models ∖ {[modelName]}]> (PodToModelMapping c)) c
    | None => c
    end in
  match ModelToPodMapping c1 !! modelName with
  | Some pods =>
    set_ModelToPodMapping (<[modelName := delete podName pods]> (ModelToPodMapping c1)) c1
  | None => c1
  end.

Definition addPod (pod : v1.Pod) (c : Cache) : Cache :=
  match v1.Labels pod !! modelIdentifier with
  | None => c   (* only track pods with model deployments *)
  | Some modelName =>
    addPodAndModelMapping (v1.Name pod) modelName
      (set_Pods (<[v1.Name pod := pod]> (Pods c)) c)
  end.

Definition updatePod (oldPod newPod : v1.Pod) (c : Cache) : Cache :=
  match v1.Labels oldPod !! modelIdentifier, v1.Labels newPod !! modelIdentifier with
  | None, None => c
  | oldModel, newModel =>
    let c1 :=
      match oldModel with
      | Some oldModelName =>
        deletePodAndModelMapping (v1.Name oldPod) oldModelName
          (set_Pods (delete (v1.Name oldPod) (Pods c)) c)
      | None => c
      end in
    match newModel with
    | Some newModelName =>
      addPodAndModelMapping (v1.Name newPod) newModelName
        (set_Pods (<[v1.Name newPod := newPod]> (Pods c1)) c1)
    | None => c1
    end
  end.

(** [for modelName := range models { c.deletePodAndModelMapping(..) }]: each
    step deletes the key it was given, so the range visits every key of the
    set once, in an order Go leaves open; [elements] fixes one. *)
Definition deleteMappingsOfPod (podName : string) (models : list string) (c : Cache) : Cache :=
  foldl (fun acc modelName => deletePodAndModelMapping podName modelName acc) c models.

Definition deletePod (pod : v1.Pod) (c : Cache) : Cache :=
  match v1.Labels pod !! modelIdentifier with
  | None => c
  | Some _ =>
    let c1 :=
      match PodToModelMapping c !! v1.Name pod with
      | Some models => deleteMappingsOfPod (v1.Name pod) (elements models) c
      | None => c
      end in
    let c2 := set_PodToModelMapping (delete (v1.Name pod) (PodToModelMapping c1)) c1 in
    let c3 := set_Pods (delete (v1.Name pod) (Pods c2)) c2 in
    set_PodMetrics (delete (v1.Name pod) (PodMetrics c3)) c3
  end.

Definition addInstances (modelName : string) (pods : list string) (c : Cache) : Cache :=
  foldl (fun acc pod => addPodAndModelMapping pod modelName acc) c pods.

Definition deleteInstances (modelName : string) (pods : list string) (c : Cache) : Cache :=
  foldl (fun acc pod => deletePodAndModelMapping pod modelName acc) c pods.

Definition addModelAdapter (model : modelv1alpha1.ModelAdapter) (c : Cache) : Cache :=
  addInstances (modelv1alpha1.Name model) (modelv1alpha1.Instances model) c.

Definition updateModelAdapter (oldModel newModel : modelv1alpha1.ModelAdapter) (c : Cache) : Cache :=
  addInstances (modelv1alpha1.Name newModel) (modelv1alpha1.Instances newModel)
    (deleteInstances (modelv1alpha1.Name oldModel) (modelv1alpha1.Instances oldModel) c).

Definition deleteModelAdapter (model : modelv1alpha1.ModelAdapter) (c : Cache) : Cache :=
  let c1 := deleteInstances (modelv1alpha1.Name model) (modelv1alpha1.Instances model) c in
  set_ModelToPodMapping (delete (modelv1alpha1.Name model) (ModelToPodMapping c1)) c1.

(** The informer callbacks registered by [NewCache], as events. *)
Inductive Event :=
| PodAdded (pod : v1.Pod)
| PodUpdated (oldPod newPod : v1.Pod)
| PodDeleted (pod : v1.Pod)
| ModelAdapterAdded (model : modelv1alpha1.ModelAdapter)
| ModelAdapterUpdated (oldModel newModel : modelv1alpha1.ModelAdapter)
| ModelAdapterDeleted (model : modelv1alpha1.ModelAdapter).

Definition dispatch (c : Cache) (e : Event) : Cache :=
  match e with
  | PodAdded pod => addPod pod c
  | PodUpdated oldPod newPod => updatePod oldPod newPod c
  | PodDeleted pod => deletePod pod c
  | ModelAdapterAdded model => addModelAdapter model c
  | ModelAdapterUpdated oldModel newModel => updateModelAdapter oldModel newModel c
  | ModelAdapterDeleted model => deleteModelAdapter model c
  end.

Definition run (events : list Event) (c : Cache) : Cache := foldl dispatch c events.

(** Read API. *)
Definition GetPodsForModel (modelName : string) (c : Cache) : option (gmap string v1.Pod) :=
  ModelToPodMapping c !! modelName.

Definition GetModelsForPod (podName : string) (c : Cache) : option (gset string) :=
  PodToModelMapping c !! podName.

Definition CheckModelExists (modelName : string) (c : Cache) : bool :=
  bool_decide (is_Some (ModelToPodMapping c !! modelName)).

(** The two projections of the binding relation. *)
Definition inPodToModel (c : Cache) (podName modelName : string) : Prop :=
  modelName ∈ default ∅ (PodToModelMapping c !! podName).

Definition podOf (c : Cache) (modelName podName : string) : option v1.Pod :=
  ModelToPodMapping c !! modelName ≫= (fun pods => pods !! podName).

Definition inModelToPod (c : Cache) (modelName podName : string) : Prop :=
  is_Some (podOf c modelName podName).

#[global] Instance inPodToModel_dec c podName modelName :
  Decision (inPodToModel c podName modelName) :=
  decide (modelName ∈ default ∅ (PodToModelMapping c !! podName)).

#[global] Instance inModelToPod_dec c modelName podName :
  Decision (inModelToPod c modelName podName) :=
  decide (is_Some (podOf c modelName podName)).

(** Every model->pods entry has its pod->models entry. *)
Definition mappingSound (c : Cache) : Prop :=
  forall modelName podName, inModelToPod c modelName podName -> inPodToModel c podName modelName.

(** The two maps hold the same bindings. *)
Definition mirrored (c : Cache) : Prop :=
  forall podName modelName, inPodToModel c podName modelName <-> inModelToPod c modelName podName.

Definition isAdapterDelete (e : Event) : bool :=
  match e with
  | ModelAdapterDeleted _ => true
  | _ => false
  end.

(** Sample objects: a pod serving base model [llama], the same pod once its
    label is gone, and adapters by name and instance list. *)
Definition p1 : v1.Pod :=
  v1.mkPod "p1" "default" {[modelIdentifier := "llama"]} "10.0.0.1" "Running".

Definition p1Unlabelled : v1.Pod :=
  v1.mkPod "p1" "default" ∅ "10.0.0.1" "Running".

Definition adapter (name : string) (instances : list string) : modelv1alpha1.ModelAdapter :=
  modelv1alpha1.mkModelAdapter name "default" instances "Running".

Definition loraOn (instances : list string) : modelv1alpha1.ModelAdapter :=
  adapter "lora-a" instances.

(** A cache that has seen [p1] and an adapter on it, with scraped metrics. *)
Definition servingCache : Cache :=
  set_PodMetrics {[ "p1" := {[ "num_requests_running" := metrics.SimpleMetricValue 0 ]} ]}
    (run [PodAdded p1; ModelAdapterAdded (loraOn ["p1"])] (NewCache None None)).

(** ** Request traces *)

Definition minInt64 : Z := - 2 ^ 63.
Definition maxInt64 : Z := 2 ^ 63 - 1.
Definition wrap64 (z : Z) : Z := (z + 2 ^ 63) `mod` 2 ^ 64 - 2 ^ 63.
Definition wrap32 (z : Z) : Z := (z + 2 ^ 31) `mod` 2 ^ 32 - 2 ^ 31.

(** [precisionRequestTrace = 0.1] is an untyped constant. The constant
    expression [int(1 / precisionRequestTrace)] is evaluated exactly and is
    [10]. *)
Definition precisionDenominator : Z := 10.

(** *** The float64 arithmetic of the bucket index *)

(** A float64 by its value. Every finite float64 is an integer multiple of
    the least positive one, [2^-1074]: [Finite n] is the number
    [n * 2^-1074]. The sign of a zero is not kept: nothing from [math.Log2]
    to the conversion to [int64] tells [+0] from [-0]. *)
Inductive float64 :=
| NaN
| Inf (negative : bool)
| Finite (n : Z).

(** The number 1, in units of [2^-1074]. *)
Definition float64One : Z := 2 ^ 1074.

(** The integer nearest to [a / d] ([0 <= a], [0 < d]), a tie going to the
    even one. *)
Definition roundHalfEven (a d : Z) : Z :=
  let (k, r) := Z.div_eucl a d in
  if 2 * r <? d then k
  else if d <? 2 * r then k + 1
  else if Z.even k then k else k + 1.

(** IEEE-754 round-to-nearest-even into binary64, of the number [a / d]
    units ([0 <= a], [0 < d]) with the given sign: 53 significant bits, so a
    number of at least [2^(52+p)] and less than [2^(53+p)] units is rounded
    to a multiple of [2^p] units; below [2^53] units (the subnormal numbers
    and the first binade above them) every whole number of units is a
    float64; from [2^1024], that is [2^2098] units, the result is an
    infinity. *)
Definition nearestFloat64 (negative : bool) (a d : Z) : float64 :=
  let p := Z.max 0 (Z.log2 (a / d) - 52) in
  let n := roundHalfEven a (d * 2 ^ p) * 2 ^ p in
  if 2 ^ 2098 <=? n then Inf negative
  else Finite (if negative then - n else n).

(** The conversion [float64(tokens)] of an [int64]. *)
Definition float64OfInt64 (tokens : Z) : float64 :=
  nearestFloat64 (tokens <? 0) (Z.abs tokens * float64One) 1.

(** As the divisor of a float64, [precisionRequestTrace] is the float64
    nearest to [1/10], which is [3602879701896397 * 2^-55]; here in units. *)
Definition precisionRequestTrace : Z := 3602879701896397 * 2 ^ 1019.

(** [x / y] for a finite [y > 0] of [d] units: NaN and the infinities are
    kept, a finite quotient is rounded. *)
Definition divide (x : float64) (d : Z) : float64 :=
  match x with
  | Finite n => nearestFloat64 (n <? 0) (Z.abs n * float64One) d
  | _ => x
  end.

(** What line 662 takes from below the language: the value the math library
    returns for a logarithm that it has to approximate, and the [int64] that
    the processor yields for a float64 that no [int64] represents (the Go
    specification leaves that conversion implementation-dependent). *)
Record Platform := mkPlatform {
  log2Inexact : float64 -> float64;
  int64Unrepresentable : float64 -> Z
}.

Module math.

(** [math.Log2]: NaN for NaN and below zero, [-Inf] at zero, [+Inf] at
    [+Inf]; at a power of two the library returns the exponent exactly
    ([Frexp] gives the fraction 1/2 and [Log2] returns [float64(exp - 1)]);
    elsewhere it is an approximation. *)
Definition Log2 (pf : Platform) (x : float64) : float64 :=
  match x with
  | NaN => NaN
  | Inf true => NaN
  | Inf false => Inf false
  | Finite n =>
      if n <? 0 then NaN
      else if n =? 0 then Inf true
      else if n =? 2 ^ Z.log2 n then Finite ((Z.log2 n - 1074) * float64One)
      else log2Inexact pf x
  end.

(** [math.Round]: the nearest integer, a half going away from zero; NaN and
    the infinities are kept. The result is a float64 whenever [x] is. *)
Definition Round (x : float64) : float64 :=
  match x with
  | Finite n => Finite (Z.sgn n * ((2 * Z.abs n + float64One) / (2 * float64One)) * float64One)
  | _ => x
  end.

End math.

(** The conversion [int64(x)]: the fraction is discarded; what no [int64]
    represents is left to the platform. *)
Definition int64OfFloat64 (pf : Platform) (x : float64) : Z :=
  match x with
  | Finite n =>
      let z := Z.quot n float64One in
      if (minInt64 <=? z) && (z <=? maxInt64) then z else int64Unrepresentable pf x
  | _ => int64Unrepresentable pf x
  end.

(** [int64(math.Round(math.Log2(float64(tokens)) / precisionRequestTrace))] *)
Definition traceIndex (pf : Platform) (tokens : Z) : Z :=
  int64OfFloat64 pf
    (math.Round (divide (math.Log2 pf (float64OfInt64 tokens)) precisionRequestTrace)).

(** Two platforms, by their conversion of a float64 that no [int64]
    represents: on amd64 [CVTTSD2SQ] yields [math.MinInt64] for every such
    value; on arm64 [FCVTZS] saturates and turns NaN into 0. The logarithm
    is left open. *)
Definition amd64 (log2Inexact : float64 -> float64) : Platform :=
  mkPlatform log2Inexact (fun _ => minInt64).


(** A sample platform for the examples. Its logarithm away from the powers
    of two is a stand-in (the exponent alone); the examples count in powers
    of two, zero and negative numbers and never consult it. *)
Definition exponentOnly (x : float64) : float64 :=
  match x with
  | Finite n => Finite ((Z.log2 n - 1074) * float64One)
  | _ => x
  end.

Definition pf0 : Platform := amd64 exponentOnly.

(** [fmt.Sprintf("%v:%v", inputIndex, outputIndex)] *)
Definition bucketKey (inputIndex outputIndex : Z) : string :=
  pretty inputIndex +:+ ":" +:+ pretty outputIndex.

(** The three entries written when a model's trace is (re)created. *)
Definition traceMeta : gmap string Z :=
  <[keyVersionRequestTrace := versionRequestTrace]>
  (<[keyPrecisionRequestTrace := precisionDenominator]>
  (<[keyWriteRequestTraceIntervalInSeconds := writeRequestTraceIntervalInSeconds]> ∅)).

(** [c.requestTrace[modelName]] after the [len(..) == 0] branch. *)
Definition traceOrMeta (modelName : string) (c : Cache) : gmap string Z :=
  let trace := default ∅ (requestTrace c !! modelName) in
  if decide (size trace = 0%nat) then traceMeta else trace.

(** [m[key] += 1] on a [map[string]int]. *)
Definition bump (key : string) (trace : gmap string Z) : gmap string Z :=
  <[key := wrap64 (default 0 (trace !! key) + 1)]> trace.

Definition AddRequestTrace (pf : Platform) (modelName : string) (inputTokens outputTokens : Z)
    (c : Cache) : Cache :=
  let inputIndex := traceIndex pf inputTokens in
  let outputIndex := traceIndex pf outputTokens in
  set_requestTrace
    (<[modelName := bump (bucketKey inputIndex outputIndex) (traceOrMeta modelName c)]>
       (requestTrace c)) c.

(** The bucketing rule in the words of the specification, to compare with:
    [i = round(log2(max(tokens,1)) / precision)] with [precision = 1/10],
    negative counts rejected. Over the reals, [round(10 * log2 t)] for
    [t >= 1] is the integer [k] with [2^(2k) <= 2 * t^20 < 2^(2k+2)]; no [t]
    sits on a tie. *)
Definition specIndex (tokens : Z) : Z :=
  (Z.log2 (Z.max tokens 1 ^ (2 * precisionDenominator)) + 1) / 2.


(** ** Flushing the traces to the key/value store *)

(** One [redisClient.Set(ctx, key, value, ttl)] as issued; [setFailed] is
    whether [.Result()] came back with an error (only logged). *)
Record RedisSet := mkRedisSet {
  setKey : string;
  setValue : string;
  setTTLSeconds : Z;
  setFailed : bool
}.

Inductive outcome := Returned | Panicked.

Section Flush.
(** [json.Marshal(trace)]: [None] when it returns an error. *)
Variable jsonMarshal : gmap string Z -> option string.
(** Whether the store rejects the write of [value] under [key]. *)
Variable redisSetFails : string -> string -> bool.

(** [fmt.Sprintf("aibrix:%v_request_trace_%v", modelName, roundT)] *)
Definition traceKey (modelName : string) (roundT : Z) : string :=
  "aibrix:" +:+ modelName +:+ "_request_trace_" +:+ pretty roundT.

(** The [for modelName, trace := range c.requestTrace] loop, over the
    entries in the order the range hands them out. A nil [c.redisClient]
    makes the call of [Set] a nil dereference. *)
Fixpoint writeTraces (client : option RedisClient) (roundT : Z)
    (entries : list (string * gmap string Z)) : list RedisSet * outcome :=
  match entries with
  | [] => ([], Returned)
  | (modelName, trace) :: rest =>
    let key := traceKey modelName roundT in
    match jsonMarshal trace with
    | None => writeTraces client roundT rest   (* continue *)
    | Some value =>
      match client with
      | None => ([], Panicked)
      | Some _ =>
        let '(sets, out) := writeTraces client roundT rest in
        (mkRedisSet key value (expireWriteRequestTraceIntervalInMins * 60)
                    (redisSetFails key value) :: sets, out)
      end
    end
  end.

(** The deferred closure resets [c.requestTrace] when the function returns
    and when it unwinds. Go leaves the order of the range open;
    [map_to_list] fixes one. *)
Definition writeRequestTraceToStorage (roundT : Z) (c : Cache) : Cache * list RedisSet * outcome :=
  let '(sets, out) := writeTraces (redisClient c) roundT (map_to_list (requestTrace c)) in
  (set_requestTrace ∅ c, sets, out).

(** One tick of [traceTicker] in the goroutine of [NewCache]; [now] is
    [time.Now().Unix()]. The goroutine has returned at once when
    [redisClient] is nil, so no tick does anything then. *)
Definition traceTick (now : Z) (c : Cache) : Cache * list RedisSet * outcome :=
  match redisClient c with
  | None => (c, [], Returned)
  | Some _ =>
    if decide (size (requestTrace c) = 0%nat) then (c, [], Returned)
    else writeRequestTraceToStorage (now - Z.rem now writeRequestTraceIntervalInSeconds) c
  end.
End Flush.

(** ** Subscribers *)

Inductive result (A : Type) :=
| Ok (a : A)
| Panic (msg : string).
Arguments Ok {A} a.
Arguments Panic {A} msg.

Fixpoint forEach {A S : Type} (body : A -> S -> result S) (l : list A) (s : S) : result S :=
  match l with
  | [] => Ok s
  | x :: rest =>
    match body x s with
    | Ok s' => forEach body rest s'
    | Panic msg => Panic msg
    end
  end.

(** The body of the inner loop of [aggregateMetrics]: the lookup in a nil
    map finds nothing, the store into it panics. *)
Definition aggregateMetric (metric : string) (c : Cache) : result Cache :=
  match metrics c with
  | None => Panic "assignment to entry in nil map"
  | Some m =>
    match m !! metric with
    | Some _ => Ok c
    | None => Ok (set_metrics (Some (<[metric := "yes"]> m)) c)
    end
  end.

Definition aggregateMetrics (c : Cache) : result Cache :=
  forEach (fun subscriber => forEach aggregateMetric (metrics.SubscribedMetrics subscriber))
          (subscribers c) c.

Definition AddSubscriber (subscriber : metrics.MetricSubscriber) (c : Cache) : result Cache :=
  aggregateMetrics (set_subscribers (subscribers c ++ [subscriber]) c).

(** Sample collaborators: a store handle, a serializer that always fails,
    a store that rejects every write, and a subscriber of one metric. *)
Definition redis0 : RedisClient := mkRedisClient "redis:6379".
Definition marshalNever (trace : gmap string Z) : option string := None.
Definition marshalAlways (trace : gmap string Z) : option string := Some "{}".
Definition storeDown (key value : string) : bool := true.
Definition runningSubscriber : metrics.MetricSubscriber :=
  metrics.mkSubscriber ["num_requests_running"].

(** ** Trace windows and pending counters *)

Module TraceWindow.

(** Modelled from the spec: the window record behind [getRequestTrace]
    (fields [numKeys], [numRequests], [completedRequests], [trace] as the
    test file reads them, [term] from section 3); its declaration is not
    part of the sources at hand. *)
Record RequestTrace := mkRequestTrace {
  numKeys : Z;
  numRequests : Z;
  completedRequests : Z;
  term : Z;
  trace : gmap string Z
}.

(** Modelled from the spec: the trace side of the cache that
    [newTraceCache] builds ([requestTrace], [pendingRequests],
    [numRequestsTraces]) with the slot for late completions of section 4.3.
    The pending counter is a 32-bit integer. *)
Record State := mkState {
  numRequestsTraces : Z;
  requestTrace : gmap string RequestTrace;
  pendingRequests : gmap string Z;
  lateCompletions : gmap string Z
}.

Definition newTraceCache : State := mkState 0 ∅ ∅ ∅.

Definition freshWindow (t : Z) : RequestTrace := mkRequestTrace 0 0 0 t ∅.

(** Modelled from the spec: the pending counter of a model, a 32-bit
    integer read as 0 while the model has no cell yet, and its atomic
    add. *)
Definition pending (modelName : string) (s : State) : Z :=
  default 0 (pendingRequests s !! modelName).

Definition addPending (modelName : string) (delta : Z) (s : State) : State :=
  mkState (numRequestsTraces s) (requestTrace s)
          (<[modelName := wrap32 (pending modelName s + delta)]> (pendingRequests s))
          (lateCompletions s).

(** Modelled from the spec: [AddRequestCount(requestId, model)] admits one
    request: it increments the model's pending counter and [numRequests] of
    the current window (allocated on first use) and returns the current
    term. The request id is not used. *)
Definition AddRequestCount (modelName : string) (s : State) : State * Z :=
  let s1 := addPending modelName 1 s in
  match requestTrace s1 !! modelName with
  | Some w =>
    let w' := mkRequestTrace (numKeys w) (wrap32 (numRequests w + 1))
                             (completedRequests w) (term w) (trace w) in
    (mkState (numRequestsTraces s1) (<[modelName := w']> (requestTrace s1))
             (pendingRequests s1) (lateCompletions s1), term w)
  | None =>
    let w' := mkRequestTrace 0 1 0 0 ∅ in
    (mkState (wrap32 (numRequestsTraces s1 + 1)) (<[modelName := w']> (requestTrace s1))
             (pendingRequests s1) (lateCompletions s1), 0)
  end.

(** Modelled from the spec: [DoneRequestCount(requestId, model, term)]
    decrements pending once and credits the completion to the window of
    [term], or to the late-completions slot when that window is gone. *)
Definition DoneRequestCount (modelName : string) (t : Z) (s : State) : State :=
  let s1 := addPending modelName (-1) s in
  match requestTrace s1 !! modelName with
  | Some w =>
    if term w =? t then
      let w' := mkRequestTrace (numKeys w) (numRequests w)
                               (wrap32 (completedRequests w + 1)) (term w) (trace w) in
      mkState (numRequestsTraces s1) (<[modelName := w']> (requestTrace s1))
              (pendingRequests s1) (lateCompletions s1)
    else
      mkState (numRequestsTraces s1) (requestTrace s1) (pendingRequests s1)
              (<[modelName := default 0 (lateCompletions s1 !! modelName) + 1]>
                 (lateCompletions s1))
  | None =>
    mkState (numRequestsTraces s1) (requestTrace s1) (pendingRequests s1)
            (<[modelName := default 0 (lateCompletions s1 !! modelName) + 1]>
               (lateCompletions s1))
  end.

(** Modelled from the spec: the bucket bump on the window of [t], with the
    bucketing rule of section 4.3 (zero coerced to 1, negative counts
    rejected); [numKeys] counts the buckets touched for the first time. *)
Definition bumpBucket (modelName : string) (t inputTokens outputTokens : Z) (s : State) : State :=
  if (inputTokens <? 0) || (outputTokens <? 0) then s
  else
    match requestTrace s !! modelName with
    | Some w =>
      if term w =? t then
        let key := bucketKey (specIndex inputTokens) (specIndex outputTokens) in
        let w' :=
          mkRequestTrace
            (if decide (is_Some (trace w !! key)) then numKeys w else wrap32 (numKeys w + 1))
            (numRequests w) (completedRequests w) (term w)
            (<[key := wrap32 (default 0 (trace w !! key) + 1)]> (trace w)) in
        mkState (numRequestsTraces s) (<[modelName := w']> (requestTrace s))
                (pendingRequests s) (lateCompletions s)
      else s
    | None => s
    end.

(** Modelled from the spec: [AddRequestTrace] bumps the bucket of the
    current window. *)
Definition AddRequestTrace (modelName : string) (inputTokens outputTokens : Z) (s : State) : State :=
  match requestTrace s !! modelName with
  | Some w => bumpBucket modelName (term w) inputTokens outputTokens s
  | None => s
  end.

(** Modelled from the spec: [DoneRequestTrace] is [DoneRequestCount]
    followed by a bucket bump on the window of [term]. *)
Definition DoneRequestTrace (modelName : string) (inputTokens outputTokens t : Z) (s : State) : State :=
  bumpBucket modelName t inputTokens outputTokens (DoneRequestCount modelName t s).

(** Modelled from the spec: the flusher's rotation (section 4.5, step 2):
    every model gets a fresh window under the next term. Pending counters
    are not part of a window. *)
Definition rotate (s : State) : State :=
  mkState (numRequestsTraces s)
          ((fun w => freshWindow (term w + 1)) <$> requestTrace s)
          (pendingRequests s) (lateCompletions s).

(** *** Workers

    The workers of the pending-counter test: each runs its iterations in
    order, an iteration being [AddRequestCount] and then, with the term
    that came back, [DoneRequestCount] or [DoneRequestTrace]. Calls of
    different workers interleave freely, and the flusher may rotate in
    between; a schedule lists who moves next. *)

Inductive DoneCall :=
| ByCount
| ByTrace (inputTokens outputTokens : Z).

Record Worker := mkWorker {
  todo : list DoneCall;       (* the iterations left, the running one first *)
  admitted : option Z         (* the term held between the two calls *)
}.

Inductive Action :=
| Call (worker : nat)
| FlushTick.

Definition Config : Type := State * list Worker.

Definition finish (modelName : string) (d : DoneCall) (t : Z) (s : State) : State :=
  match d with
  | ByCount => DoneRequestCount modelName t s
  | ByTrace inputTokens outputTokens => DoneRequestTrace modelName inputTokens outputTokens t s
  end.

(** One call of one worker, or one rotation; [None] when the scheduled
    worker does not exist or has nothing left to do. *)
Definition step (modelName : string) (cfg : Config) (a : Action) : option Config :=
  match a with
  | FlushTick => Some (rotate cfg.1, cfg.2)
  | Call i =>
    match cfg.2 !! i with
    | None => None
    | Some w =>
      match todo w, admitted w with
      | [], _ => None
      | d :: rest, None =>
        let '(s', t) := AddRequestCount modelName cfg.1 in
        Some (s', <[i := mkWorker (d :: rest) (Some t)]> cfg.2)
      | d :: rest, Some t =>
        Some (finish modelName d t cfg.1, <[i := mkWorker rest None]> cfg.2)
      end
    end
  end.

Fixpoint exec (modelName : string) (schedule : list Action) (cfg : Config) : option Config :=
  match schedule with
  | [] => Some cfg
  | a :: rest =>
    match step modelName cfg a with
    | Some cfg' => exec modelName rest cfg'
    | None => None
    end
  end.

(** All calls have returned. *)
Definition quiescent (cfg : Config) : Prop :=
  Forall (fun w => todo w = [] /\ admitted w = None) cfg.2.

(** M workers of N iterations each on an empty cache. *)
Definition start (programs : list (list DoneCall)) : Config :=
  (newTraceCache, (fun p => mkWorker p None) <$> programs).

(** Requests admitted and not yet done. *)
Definition inFlight (ws : list Worker) : Z :=
  foldr Z.add 0 ((fun w => match admitted w with Some _ => 1 | None => 0 end) <$> ws).

(** The counter agrees with the number of requests in flight. *)
Definition counted (modelName : string) (cfg : Config) : Prop :=
  pending modelName cfg.1 = wrap32 (inFlight cfg.2).

(** Two workers of two iterations each, as in the test, and one way their
    calls can interleave with a rotation in between. *)
Definition twoByTwo : list (list DoneCall) := replicate 2 (replicate 2 (ByTrace 1 1)).

Definition interleaved : list Action :=
  [Call 0%nat; Call 1%nat; FlushTick; Call 0%nat; Call 1%nat;
   Call 1%nat; Call 0%nat; Call 1%nat; Call 0%nat].

End TraceWindow.

(** ** The rest of the read API *)

(** [GetPod]: the pod, or the error of [fmt.Errorf]. *)
Definition GetPod (podName : string) (c : Cache) : v1.Pod + string :=
  match Pods c !! podName with
  | Some pod => inl pod
  | None => inr ("pod does not exist in the cache: " +:+ podName)
  end.

Definition GetPods (c : Cache) : gmap string v1.Pod := Pods c.

Definition GetPodMetric (podName metricName : string) (c : Cache)
    : metrics.MetricValue + string :=
  match PodMetrics c !! podName with
  | None => inr "pod does not exist in the podMetrics cache"
  | Some podMetrics =>
    match podMetrics !! metricName with
    | None => inr ("no metric available for " +:+ metricName)
    | Some metricVal => inl metricVal
    end
  end.

(** [GetCache], for a given package-level [instance]. *)
Definition GetCache (instance : Cache) : Cache + string :=
  if initialized instance then inl instance else inr "cache is not initialized".

(** Every registry key is the name of the pod stored under it, and that pod
    carries the model label. *)
Definition registryKeyed (c : Cache) : Prop :=
  forall podName pod,
    Pods c !! podName = Some pod ->
    v1.Name pod = podName /\ is_Some (v1.Labels pod !! modelIdentifier).

(** Two caches agree on every field outside the registry, the two mapping
    tables and the pod metrics. *)
Definition sameBesidesIndex (c c' : Cache) : Prop :=
  redisClient c' = redisClient c /\ prometheusApi c' = prometheusApi c
  /\ initialized c' = initialized c /\ subscribers c' = subscribers c
  /\ metrics c' = metrics c /\ ModelMetrics c' = ModelMetrics c
  /\ requestTrace c' = requestTrace c.

(** ** Metrics refresh *)

(** The metric names of package [metrics] that the three name lists of the
    cache are built from; their string values are not part of the sources. *)
Record MetricNames := mkMetricNames {
  NumRequestsRunning : string;
  NumRequestsWaiting : string;
  NumRequestsSwapped : string;
  AvgPromptThroughputToksPerS : string;
  AvgGenerationThroughputToksPerS : string;
  IterationTokensTotal : string;
  TimeToFirstTokenSeconds : string;
  TimePerOutputTokenSeconds : string;
  E2ERequestLatencySeconds : string;
  RequestQueueTimeSeconds : string;
  RequestInferenceTimeSeconds : string;
  RequestDecodeTimeSeconds : string;
  RequestPrefillTimeSeconds : string;
  P95TTFT5m : string
}.

Definition counterGaugeMetricNames (names : MetricNames) : list string :=
  [NumRequestsRunning names; NumRequestsWaiting names; NumRequestsSwapped names;
   AvgPromptThroughputToksPerS names; AvgGenerationThroughputToksPerS names].

Definition histogramMetricNames (names : MetricNames) : list string :=
  [IterationTokensTotal names; TimeToFirstTokenSeconds names;
   TimePerOutputTokenSeconds names; E2ERequestLatencySeconds names;
   RequestQueueTimeSeconds names; RequestInferenceTimeSeconds names;
   RequestDecodeTimeSeconds names; RequestPrefillTimeSeconds names].

Definition prometheusMetricNames (names : MetricNames) : list string :=
  [P95TTFT5m names].

(** [c.PodMetrics[podName][metricName] = value], the inner map being there. *)
Definition setPodMetric (podName metricName : string) (value : metrics.MetricValue)
    (pm : gmap string (gmap string metrics.MetricValue))
    : gmap string (gmap string metrics.MetricValue) :=
  <[podName := <[metricName := value]> (default ∅ (pm !! podName))]> pm.

(** The metric stored for a pod, through both levels. *)
Definition metricOf (c : Cache) (podName metricName : string) : option metrics.MetricValue :=
  PodMetrics c !! podName ≫= (fun podMetrics => podMetrics !! metricName).

Section Refresh.
Variable names : MetricNames.
(** [http.Get(url)] followed by [io.ReadAll]: the body, [None] when either
    fails. *)
Variable httpGet : string -> option string.
(** [metrics.ParseMetricFromBody(body, name)]: the value (its bits), [None]
    on error. *)
Variable ParseMetricFromBody : string -> string -> option Z.
(** [metrics.ParseHistogramFromBody(body, name)]: sum, count and buckets of
    [GetHistogramValue()], [None] on error. *)
Variable ParseHistogramFromBody : string -> string -> option (Z * Z * list (string * Z)).
(** [metrics.Metrics[name]]: the PromQL of a known metric. *)
Variable promQL : string -> option string.
(** [metrics.BuildQuery(promQL, queryLabels)] *)
Variable BuildQuery : string -> gmap string string -> string.
(** [c.prometheusApi.Query(ctx, query, time.Now())]: the result, [None] on
    error. *)
Variable promQuery : string -> option string.

(** [fmt.Sprintf("http://%s:%d/metrics", pod.Status.PodIP, podPort)] *)
Definition metricsURL (pod : v1.Pod) : string :=
  "http://" +:+ v1.PodIP pod +:+ ":" +:+ pretty podPort +:+ "/metrics".

Definition parseCounterGauge (podName body : string)
    (pm : gmap string (gmap string metrics.MetricValue)) (metricName : string) :=
  match ParseMetricFromBody body metricName with
  | None => pm   (* continue *)
  | Some metricValue => setPodMetric podName metricName (metrics.SimpleMetricValue metricValue) pm
  end.

Definition parseHistogram (podName body : string)
    (pm : gmap string (gmap string metrics.MetricValue)) (metricName : string) :=
  match ParseHistogramFromBody body metricName with
  | None => pm   (* continue *)
  | Some (sum, count, buckets) =>
    setPodMetric podName metricName (metrics.HistogramMetricValue sum count buckets) pm
  end.

Definition podQueryLabels (pod : v1.Pod) : gmap string string :=
  <["instance" := v1.PodIP pod +:+ "/" +:+ pretty podPort]>
  (<["model_name" := default "" (v1.Labels pod !! "model.aibrix.ai/name")]> ∅).

Definition queryPodMetric (pod : v1.Pod)
    (pm : gmap string (gmap string metrics.MetricValue)) (metricName : string) :=
  match promQL metricName with
  | None => pm   (* "Cannot find %v in the metric list" *)
  | Some q =>
    match promQuery (BuildQuery q (podQueryLabels pod)) with
    | None => pm   (* "Error executing query" *)
    | Some result =>
      setPodMetric (v1.Name pod) metricName (metrics.PrometheusMetricValue result) pm
    end
  end.

(** The body of [for _, pod := range c.Pods] in [updatePodMetrics]. *)
Definition scrapePod (c : Cache) (pod : v1.Pod) : Cache :=
  if decide (v1.PodIP pod = "") then c
  else
    let podName := v1.Name pod in
    let pm0 :=
      if decide (size (default ∅ (PodMetrics c !! podName)) = 0%nat)
      then <[podName := ∅]> (PodMetrics c)
      else PodMetrics c in
    match httpGet (metricsURL pod) with
    | None => set_PodMetrics pm0 c
    | Some body =>
      let pm1 := foldl (parseCounterGauge (v1.Name pod) body) pm0
                       (counterGaugeMetricNames names) in
      let pm2 := foldl (parseHistogram (v1.Name pod) body) pm1
                       (histogramMetricNames names) in
      match prometheusApi c with
      | None => set_PodMetrics pm2 c
      | Some _ =>
        set_PodMetrics (foldl (queryPodMetric pod) pm2 (prometheusMetricNames names)) c
      end
    end.

(** [updatePodMetrics]; the range over [c.Pods] in the order of
    [map_to_list]. *)
Definition updatePodMetrics (c : Cache) : Cache :=
  foldl scrapePod c ((map_to_list (Pods c)).*2).

(** The body of the inner loop of [updateModelMetrics], on [c.ModelMetrics]. *)
Definition queryModelMetric (metricName : string)
    (mm : option (gmap string (gmap string string))) (modelName : string)
    : option (gmap string (gmap string string)) :=
  let mm1 := default ∅ mm in
  let mm2 :=
    match mm1 !! modelName with
    | None => <[modelName := ∅]> mm1
    | Some _ => mm1
    end in
  match promQL metricName with
  | None => Some mm2
  | Some q =>
    match promQuery (BuildQuery q (<["model_name" := modelName]> ∅)) with
    | None => Some mm2
    | Some result =>
      Some (<[modelName := <[metricName := result]> (default ∅ (mm2 !! modelName))]> mm2)
    end
  end.

Definition set_ModelMetrics (v : option (gmap string (gmap string string))) (c : Cache) : Cache :=
  mkCache (redisClient c) (prometheusApi c) (initialized c) (subscribers c) (metrics c)
          v (Pods c) (PodMetrics c) (PodToModelMapping c)
          (ModelToPodMapping c) (requestTrace c).

Definition updateModelMetrics (c : Cache) : Cache :=
  match prometheusApi c with
  | None => c
  | Some _ =>
    set_ModelMetrics
      (foldl (fun mm metricName =>
                foldl (queryModelMetric metricName) mm
                      ((map_to_list (ModelToPodMapping c)).*1))
             (ModelMetrics c) (prometheusMetricNames names)) c
  end.

(** What each of the three passes over a pod's metrics finds for a name. *)
Definition counterValue (body metricName : string) : option metrics.MetricValue :=
  metrics.SimpleMetricValue <$> ParseMetricFromBody body metricName.

Definition histogramValue (body metricName : string) : option metrics.MetricValue :=
  (fun h => metrics.HistogramMetricValue h.1.1 h.1.2 h.2)
  <$> ParseHistogramFromBody body metricName.

Definition queriedValue (pod : v1.Pod) (metricName : string) : option metrics.MetricValue :=
  promQL metricName ≫= (fun q =>
    metrics.PrometheusMetricValue <$> promQuery (BuildQuery q (podQueryLabels pod))).

(** The metric stored for a model, through the nil map and both levels. *)
Definition modelMetricOf (c : Cache) (modelName metricName : string) : option string :=
  match ModelMetrics c with
  | None => None
  | Some mm =>
    match mm !! modelName with
    | None => None
    | Some m => m !! metricName
    end
  end.

End Refresh.

(** The write that one entry of [requestTrace] gives rise to in a flush, if
    its trace serialises. *)
Definition setFor (jsonMarshal : gmap string Z -> option string)
    (redisSetFails : string -> string -> bool) (roundT : Z)
    (entry : string * gmap string Z) : option RedisSet :=
  (fun value =>
     mkRedisSet (traceKey entry.1 roundT) value (expireWriteRequestTraceIntervalInMins * 60)
                (redisSetFails (traceKey entry.1 roundT) value))
  <$> jsonMarshal entry.2.

(** ** Sequences of trace calls *)

(** [AddRequestTrace] for each (model, input tokens, output tokens) in turn. *)
Definition recordAll (pf : Platform) (calls : list (string * Z * Z)) (c : Cache) : Cache :=
  foldl (fun acc call => AddRequestTrace pf call.1.1 call.1.2 call.2 acc) c calls.

(** How many of the calls land in bucket [key] of [modelName]. *)
Definition hits (pf : Platform) (modelName key : string) (calls : list (string * Z * Z)) : Z :=
  Z.of_nat (length (filter (fun call =>
    call.1.1 = modelName
    /\ bucketKey (traceIndex pf call.1.2) (traceIndex pf call.2) = key) calls)).

(** The count a model's trace holds under a key, 0 when there is none. *)
Definition countOf (c : Cache) (modelName key : string) : Z :=
  default 0 (requestTrace c !! modelName ≫= (fun trace => trace !! key)).

(** A trace carries the three entries that describe it. *)
Definition metaComplete (trace : gmap string Z) : Prop :=
  trace !! keyWriteRequestTraceIntervalInSeconds = Some writeRequestTraceIntervalInSeconds
  /\ trace !! keyPrecisionRequestTrace = Some precisionDenominator
  /\ trace !! keyVersionRequestTrace = Some versionRequestTrace.

Definition tracesCarryMeta (c : Cache) : Prop :=
  forall modelName trace, requestTrace c !! modelName = Some trace -> metaComplete trace.

(** Whether every character of a string passes a test. *)
Fixpoint allChars (ok : Ascii.ascii -> bool) (s : string) : bool :=
  match s with
  | EmptyString => true
  | String a rest => ok a && allChars ok rest
  end.

Definition isDigitOrDash (a : Ascii.ascii) : bool :=
  bool_decide (a ∈ ["0"; "1"; "2"; "3"; "4"; "5"; "6"; "7"; "8"; "9"; "-"]%char).

(** Sample collaborators for the refresh: metric names, an endpoint that is
    down, parsers that find nothing, an empty metric table. *)
Definition sampleNames : MetricNames :=
  mkMetricNames "num_requests_running" "num_requests_waiting" "num_requests_swapped"
    "avg_prompt_throughput_toks_per_s" "avg_generation_throughput_toks_per_s"
    "iteration_tokens_total" "time_to_first_token_seconds"
    "time_per_output_token_seconds" "e2e_request_latency_seconds"
    "request_queue_time_seconds" "request_inference_time_seconds"
    "request_decode_time_seconds" "request_prefill_time_seconds" "p95_ttft_5m".

Definition endpointDown (url : string) : option string := None.
Definition endpointUp (url : string) : option string := Some "body".
Definition parseNothing (body metricName : string) : option Z := None.
Definition parseSeven (body metricName : string) : option Z := Some 7.
Definition histogramNothing (body metricName : string)
    : option (Z * Z * list (string * Z)) := None.
Definition tableOf (q : string) (metricName : string) : option string := Some q.
Definition buildPlain (q : string) (labels : gmap string string) : string := q.
Definition queryAnswers (query : string) : option string := Some "0.25".
Definition prom0 : PrometheusAPI := mkPrometheusAPI "http://prometheus:9090".

(** Closed, decidable statements are settled by running their decision
    procedure. *)
Ltac by_evaluation := apply (bool_decide_unpack _); vm_compute; exact I.

(** * Properties *)

(** ** Pod/model index: what the two primitives do to the projections *)

Section Index.
Implicit Types (c : Cache) (p m : string).

Lemma addPodAndModelMapping_known c p m pod :
  Pods c !! p = Some pod ->
  addPodAndModelMapping p m c =
  set_ModelToPodMapping
    (<[m := <[p := pod]> (default ∅ (ModelToPodMapping c !! m))]> (ModelToPodMapping c))
    (set_PodToModelMapping
       (<[p := {[m]} ∪ default ∅ (PodToModelMapping c !! p)]> (PodToModelMapping c)) c).
Proof.
  intros Hp. unfold addPodAndModelMapping. rewrite Hp.
  destruct (PodToModelMapping c !! p) as [models|] eqn:E1; simpl;
    destruct (ModelToPodMapping c !! m) as [pods|] eqn:E2; simpl;
    rewrite ?union_empty_r_L; reflexivity.
Qed.

Lemma addPodAndModelMapping_unknown c p m :
  Pods c !! p = None -> addPodAndModelMapping p m c = c.
Proof. intros Hp. unfold addPodAndModelMapping. by rewrite Hp. Qed.

Lemma deletePodAndModelMapping_alter c p m :
  deletePodAndModelMapping p m c =
  set_ModelToPodMapping (alter (delete p) m (ModelToPodMapping c))
    (set_PodToModelMapping
       (alter (fun models => models ∖ {[m]}) p (PodToModelMapping c)) c).
Proof.
  destruct c as [r pr ini subs met mm pods pm p2m m2p rt].
  unfold deletePodAndModelMapping, set_ModelToPodMapping, set_PodToModelMapping. simpl.
  destruct (p2m !! p) as [models|] eqn:E1; simpl;
    destruct (m2p !! m) as [ps|] eqn:E2; simpl; f_equal;
    apply map_eq; intros k; rewrite lookup_alter;
    case_decide; subst; rewrite ?lookup_insert_eq, ?lookup_insert_ne by done;
    rewrite ?E1, ?E2; done.
Qed.

Lemma addPodAndModelMapping_Pods c p m : Pods (addPodAndModelMapping p m c) = Pods c.
Proof.
  destruct (Pods c !! p) as [pod|] eqn:Hp.
  - by rewrite (addPodAndModelMapping_known _ _ _ _ Hp).
  - by rewrite addPodAndModelMapping_unknown.
Qed.

Lemma deletePodAndModelMapping_Pods c p m : Pods (deletePodAndModelMapping p m c) = Pods c.
Proof.
  unfold deletePodAndModelMapping.
  destruct (PodToModelMapping c !! p); simpl;
    destruct (ModelToPodMapping c !! m); reflexivity.
Qed.

Lemma addPodAndModelMapping_PodMetrics c p m :
  PodMetrics (addPodAndModelMapping p m c) = PodMetrics c.
Proof.
  destruct (Pods c !! p) as [pod|] eqn:Hp.
  - by rewrite (addPodAndModelMapping_known _ _ _ _ Hp).
  - by rewrite addPodAndModelMapping_unknown.
Qed.

Lemma deletePodAndModelMapping_PodMetrics c p m :
  PodMetrics (deletePodAndModelMapping p m c) = PodMetrics c.
Proof.
  unfold deletePodAndModelMapping.
  destruct (PodToModelMapping c !! p); simpl;
    destruct (ModelToPodMapping c !! m); reflexivity.
Qed.

Lemma inPodToModel_add c p m p' m' :
  inPodToModel (addPodAndModelMapping p m c) p' m' <->
  inPodToModel c p' m' \/ (p' = p /\ m' = m /\ is_Some (Pods c !! p)).
Proof.
  unfold inPodToModel.
  destruct (Pods c !! p) as [pod|] eqn:Hp.
  - rewrite (addPodAndModelMapping_known _ _ _ _ Hp). simpl.
    destruct (decide (p = p')) as [->|Hne].
    + rewrite lookup_insert_eq. simpl. set_solver.
    + rewrite lookup_insert_ne by done. naive_solver.
  - rewrite addPodAndModelMapping_unknown by done.
    split; [by left|]. intros [?|(_ & _ & [? ?])]; done.
Qed.

Lemma podOf_add c p m m' p' :
  podOf (addPodAndModelMapping p m c) m' p' =
  if decide (m' = m /\ p' = p /\ is_Some (Pods c !! p)) then Pods c !! p
  else podOf c m' p'.
Proof.
  unfold podOf.
  destruct (Pods c !! p) as [pod|] eqn:Hp.
  - rewrite (addPodAndModelMapping_known _ _ _ _ Hp). simpl.
    case_decide as Hd.
    + destruct Hd as (-> & -> & _). rewrite lookup_insert_eq. simpl.
      by rewrite lookup_insert_eq.
    + destruct (decide (m = m')) as [->|Hne].
      * rewrite lookup_insert_eq. simpl.
        rewrite lookup_insert_ne; [|intros ->; apply Hd; eauto].
        by destruct (ModelToPodMapping c !! m').
      * by rewrite lookup_insert_ne.
  - rewrite addPodAndModelMapping_unknown by done.
    case_decide as Hd; [|done]. destruct Hd as (_ & _ & [? ?]); done.
Qed.

Lemma inPodToModel_delete c p m p' m' :
  inPodToModel (deletePodAndModelMapping p m c) p' m' <->
  inPodToModel c p' m' /\ ~ (p' = p /\ m' = m).
Proof.
  unfold inPodToModel. rewrite deletePodAndModelMapping_alter. simpl.
  rewrite lookup_alter. case_decide as Hd.
  - subst p'. destruct (PodToModelMapping c !! p); simpl; set_solver.
  - naive_solver.
Qed.

Lemma podOf_delete c p m m' p' :
  podOf (deletePodAndModelMapping p m c) m' p' =
  if decide (m' = m /\ p' = p) then None else podOf c m' p'.
Proof.
  unfold podOf. rewrite deletePodAndModelMapping_alter. simpl.
  rewrite lookup_alter. case_decide as Hd.
  - subst m'. destruct (ModelToPodMapping c !! m) as [pods|]; simpl.
    + case_decide as Hd2.
      * destruct Hd2 as [_ ->]. by rewrite lookup_delete_eq.
      * rewrite lookup_delete_ne; [done|]. intros ->. by apply Hd2.
    + by case_decide.
  - case_decide as Hd2; [|done]. destruct Hd2 as [-> _]. done.
Qed.

End Index.

(** ** The loops over [Status.Instances] *)

Section Instances.
Implicit Types (c : Cache) (p m : string) (l : list string).

Lemma addInstances_Pods m l c : Pods (addInstances m l c) = Pods c.
Proof.
  revert c. induction l as [|p l IH]; intros c; simpl; [done|].
  unfold addInstances in *. simpl. by rewrite IH, addPodAndModelMapping_Pods.
Qed.

Lemma deleteInstances_Pods m l c : Pods (deleteInstances m l c) = Pods c.
Proof.
  revert c. induction l as [|p l IH]; intros c; simpl; [done|].
  unfold deleteInstances in *. simpl. by rewrite IH, deletePodAndModelMapping_Pods.
Qed.

Lemma inPodToModel_addInstances m l c p' m' :
  inPodToModel (addInstances m l c) p' m' <->
  inPodToModel c p' m' \/ (m' = m /\ p' ∈ l /\ is_Some (Pods c !! p')).
Proof.
  revert c. induction l as [|p l IH]; intros c.
  - simpl. set_solver.
  - change (addInstances m (p :: l) c) with (addInstances m l (addPodAndModelMapping p m c)).
    rewrite IH, addPodAndModelMapping_Pods, inPodToModel_add, elem_of_cons.
    naive_solver.
Qed.

Lemma podOf_addInstances m l c m' p' :
  podOf (addInstances m l c) m' p' =
  if decide (m' = m /\ p' ∈ l /\ is_Some (Pods c !! p')) then Pods c !! p'
  else podOf c m' p'.
Proof.
  revert c. induction l as [|p l IH]; intros c.
  - simpl. case_decide as Hd; [|done]. destruct Hd as (_ & Hin & _).
    by apply elem_of_nil in Hin.
  - change (addInstances m (p :: l) c) with (addInstances m l (addPodAndModelMapping p m c)).
    rewrite IH, addPodAndModelMapping_Pods, podOf_add.
    repeat case_decide; rewrite ?elem_of_cons in *; naive_solver.
Qed.

Lemma inPodToModel_deleteInstances m l c p' m' :
  inPodToModel (deleteInstances m l c) p' m' <->
  inPodToModel c p' m' /\ ~ (m' = m /\ p' ∈ l).
Proof.
  revert c. induction l as [|p l IH]; intros c.
  - simpl. set_solver.
  - change (deleteInstances m (p :: l) c)
      with (deleteInstances m l (deletePodAndModelMapping p m c)).
    rewrite IH, inPodToModel_delete, elem_of_cons. naive_solver.
Qed.

Lemma podOf_deleteInstances m l c m' p' :
  podOf (deleteInstances m l c) m' p' =
  if decide (m' = m /\ p' ∈ l) then None else podOf c m' p'.
Proof.
  revert c. induction l as [|p l IH]; intros c.
  - simpl. case_decide as Hd; [|done]. destruct Hd as [_ Hin].
    by apply elem_of_nil in Hin.
  - change (deleteInstances m (p :: l) c)
      with (deleteInstances m l (deletePodAndModelMapping p m c)).
    rewrite IH, podOf_delete.
    repeat case_decide; rewrite ?elem_of_cons in *; naive_solver.
Qed.

End Instances.

(** ** updateModelAdapter *)

(** C5, as stated, fails: on a fresh cache, updating [lora-a] from no
    instances to [p1] adds no binding, because [p1] is not in the pod
    registry; and a binding listed on both sides is dropped when its pod has
    left the registry in between. *)
Lemma updateModelAdapter_skips_unknown_pod :
  (let c := updateModelAdapter (loraOn []) (loraOn ["p1"]) (NewCache None None) in
   ~ inPodToModel c "p1" "lora-a" /\ ~ inModelToPod c "lora-a" "p1")
  /\
  (let c0 := run [PodAdded p1; ModelAdapterAdded (loraOn ["p1"]);
                  PodUpdated p1 p1Unlabelled] (NewCache None None) in
   let c := updateModelAdapter (loraOn ["p1"]) (loraOn ["p1"]) c0 in
   inPodToModel c0 "p1" "lora-a" /\ inModelToPod c0 "lora-a" "p1"
   /\ ~ inPodToModel c "p1" "lora-a" /\ ~ inModelToPod c "lora-a" "p1").
Proof.
  repeat split; by_evaluation.
Qed.

(** C5 (amended): [updateModelAdapter(old, new)] first removes the bindings
    listed in [old], then adds those listed in [new] whose pod is in the pod
    registry. So a binding listed in [new] is present afterwards exactly when
    its pod is registered or it was there before and [old] does not list it
    (in model->pods it then holds the registry's pod); a binding listed only
    in [old] is gone; every other binding, and the registry, is unchanged. *)
Theorem updateModelAdapter_bindings (oldModel newModel : modelv1alpha1.ModelAdapter)
    (c : Cache) (p m : string) :
  let c' := updateModelAdapter oldModel newModel c in
  let listedNew := m = modelv1alpha1.Name newModel /\ p ∈ modelv1alpha1.Instances newModel in
  let listedOld := m = modelv1alpha1.Name oldModel /\ p ∈ modelv1alpha1.Instances oldModel in
  (inPodToModel c' p m <->
     (listedNew /\ is_Some (Pods c !! p)) \/ (inPodToModel c p m /\ ~ listedOld))
  /\ podOf c' m p =
     (if decide (listedNew /\ is_Some (Pods c !! p)) then Pods c !! p
      else if decide listedOld then None
      else podOf c m p)
  /\ Pods c' = Pods c.
Proof.
  simpl. unfold updateModelAdapter. split; [|split].
  - rewrite inPodToModel_addInstances, deleteInstances_Pods, inPodToModel_deleteInstances.
    naive_solver.
  - rewrite podOf_addInstances, deleteInstances_Pods, podOf_deleteInstances.
    repeat case_decide; naive_solver.
  - by rewrite addInstances_Pods, deleteInstances_Pods.
Qed.

(** ** addPod *)

Lemma addPod_labelled (pod : v1.Pod) (c : Cache) (m : string) :
  v1.Labels pod !! modelIdentifier = Some m ->
  addPod pod c =
  mkCache (redisClient c) (prometheusApi c) (initialized c) (subscribers c) (metrics c)
    (ModelMetrics c) (<[v1.Name pod := pod]> (Pods c)) (PodMetrics c)
    (<[v1.Name pod := {[m]} ∪ default ∅ (PodToModelMapping c !! v1.Name pod)]>
       (PodToModelMapping c))
    (<[m := <[v1.Name pod := pod]> (default ∅ (ModelToPodMapping c !! m))]>
       (ModelToPodMapping c))
    (requestTrace c).
Proof.
  intros Hl. unfold addPod. rewrite Hl.
  erewrite addPodAndModelMapping_known; [reflexivity|].
  simpl. apply lookup_insert_eq.
Qed.

(** C8: [addPod] leaves the cache as it is when the pod has no
    [model.aibrix.ai/name] label, and adding the same pod a second time
    changes nothing. *)
Theorem addPod_noop_and_idempotent (pod : v1.Pod) (c : Cache) :
  (v1.Labels pod !! modelIdentifier = None -> addPod pod c = c)
  /\ addPod pod (addPod pod c) = addPod pod c.
Proof.
  split.
  - intros Hl. unfold addPod. by rewrite Hl.
  - destruct (v1.Labels pod !! modelIdentifier) as [m|] eqn:Hl.
    + rewrite (addPod_labelled pod (addPod pod c) m Hl).
      rewrite (addPod_labelled pod c m Hl). simpl.
      rewrite !lookup_insert_eq, !insert_insert_eq. simpl.
      rewrite insert_insert_eq.
      replace ({[m]} ∪ ({[m]} ∪ default ∅ (PodToModelMapping c !! v1.Name pod)))
        with ({[m]} ∪ default ∅ (PodToModelMapping c !! v1.Name pod)) by set_solver.
      reflexivity.
    + unfold addPod. by rewrite Hl.
Qed.

Lemma addPod_noop_and_idempotent_witness :
  v1.Labels p1Unlabelled !! modelIdentifier = None
  /\ addPod p1Unlabelled servingCache = servingCache
  /\ addPod p1 (addPod p1 servingCache) = addPod p1 servingCache.
Proof.
  assert (Hl : v1.Labels p1Unlabelled !! modelIdentifier = None) by reflexivity.
  split; [exact Hl|]. split.
  - exact (proj1 (addPod_noop_and_idempotent p1Unlabelled servingCache) Hl).
  - exact (proj2 (addPod_noop_and_idempotent p1 servingCache)).
Defined.

(** ** deletePod *)

Section DeletePod.
Implicit Types (c : Cache) (p m : string) (l : list string).

Lemma deleteMappingsOfPod_Pods p l c : Pods (deleteMappingsOfPod p l c) = Pods c.
Proof.
  revert c. induction l as [|m l IH]; intros c; [done|].
  unfold deleteMappingsOfPod in *. simpl. by rewrite IH, deletePodAndModelMapping_Pods.
Qed.

Lemma deleteMappingsOfPod_PodMetrics p l c :
  PodMetrics (deleteMappingsOfPod p l c) = PodMetrics c.
Proof.
  revert c. induction l as [|m l IH]; intros c; [done|].
  unfold deleteMappingsOfPod in *. simpl. by rewrite IH, deletePodAndModelMapping_PodMetrics.
Qed.

Lemma inPodToModel_deleteMappingsOfPod p l c p' m' :
  inPodToModel (deleteMappingsOfPod p l c) p' m' <->
  inPodToModel c p' m' /\ ~ (p' = p /\ m' ∈ l).
Proof.
  revert c. induction l as [|m l IH]; intros c.
  - simpl. set_solver.
  - change (deleteMappingsOfPod p (m :: l) c)
      with (deleteMappingsOfPod p l (deletePodAndModelMapping p m c)).
    rewrite IH, inPodToModel_delete, elem_of_cons. naive_solver.
Qed.

Lemma podOf_deleteMappingsOfPod p l c m' p' :
  podOf (deleteMappingsOfPod p l c) m' p' =
  if decide (p' = p /\ m' ∈ l) then None else podOf c m' p'.
Proof.
  revert c. induction l as [|m l IH]; intros c.
  - simpl. case_decide as Hd; [|done]. destruct Hd as [_ Hin].
    by apply elem_of_nil in Hin.
  - change (deleteMappingsOfPod p (m :: l) c)
      with (deleteMappingsOfPod p l (deletePodAndModelMapping p m c)).
    rewrite IH, podOf_delete.
    repeat case_decide; rewrite ?elem_of_cons in *; naive_solver.
Qed.

(** The order in which the range hands out the models does not matter. *)
Lemma deleteMappingsOfPod_Permutation p l l' c :
  l ≡ₚ l' -> deleteMappingsOfPod p l c = deleteMappingsOfPod p l' c.
Proof.
  intros Hperm. revert c.
  induction Hperm as [|m l l' _ IH|m1 m2 l|l1 l2 l3 _ IH1 _ IH2]; intros c.
  - done.
  - apply IH.
  - change (deleteMappingsOfPod p l
              (deletePodAndModelMapping p m1 (deletePodAndModelMapping p m2 c)) =
            deleteMappingsOfPod p l
              (deletePodAndModelMapping p m2 (deletePodAndModelMapping p m1 c))).
    f_equal. rewrite !deletePodAndModelMapping_alter.
    unfold set_ModelToPodMapping, set_PodToModelMapping. simpl. f_equal.
    + apply map_eq; intros k. rewrite !lookup_alter.
      repeat case_decide; try done.
      destruct (PodToModelMapping c !! p); simpl; [f_equal; set_solver|done].
    + apply map_eq; intros k. rewrite !lookup_alter.
      repeat case_decide; subst; try done; congruence.
  - by rewrite IH1, IH2.
Qed.

Lemma deletePod_unlabelled (pod : v1.Pod) c :
  v1.Labels pod !! modelIdentifier = None -> deletePod pod c = c.
Proof. intros Hl. unfold deletePod. by rewrite Hl. Qed.

Lemma inPodToModel_deletePod (pod : v1.Pod) c p' m' :
  is_Some (v1.Labels pod !! modelIdentifier) ->
  inPodToModel (deletePod pod c) p' m' <-> p' ≠ v1.Name pod /\ inPodToModel c p' m'.
Proof.
  intros [x Hl]. unfold deletePod. rewrite Hl.
  unfold inPodToModel at 1. simpl.
  destruct (decide (p' = v1.Name pod)) as [->|Hne].
  - rewrite lookup_delete_eq. simpl. set_solver.
  - rewrite lookup_delete_ne by done.
    fold (inPodToModel
            match PodToModelMapping c !! v1.Name pod with
            | Some models => deleteMappingsOfPod (v1.Name pod) (elements models) c
            | None => c
            end p' m').
    destruct (PodToModelMapping c !! v1.Name pod) as [models|].
    + rewrite inPodToModel_deleteMappingsOfPod. naive_solver.
    + naive_solver.
Qed.

Lemma podOf_deletePod (pod : v1.Pod) c m' p' :
  is_Some (v1.Labels pod !! modelIdentifier) ->
  podOf (deletePod pod c) m' p' =
  if decide (p' = v1.Name pod /\ inPodToModel c (v1.Name pod) m') then None
  else podOf c m' p'.
Proof.
  intros [x Hl]. unfold deletePod. rewrite Hl.
  unfold podOf at 1. simpl.
  fold (podOf
          match PodToModelMapping c !! v1.Name pod with
          | Some models => deleteMappingsOfPod (v1.Name pod) (elements models) c
          | None => c
          end m' p').
  destruct (PodToModelMapping c !! v1.Name pod) as [models|] eqn:E; simpl.
  - rewrite podOf_deleteMappingsOfPod.
    repeat case_decide; unfold inPodToModel in *; rewrite ?E in *; simpl in *;
      rewrite ?elem_of_elements in *; naive_solver.
  - case_decide as Hd; [|done]. destruct Hd as [_ Hin].
    unfold inPodToModel in Hin. rewrite E in Hin. set_solver.
Qed.

End DeletePod.

(** ** The two maps against each other *)

Section Mirror.
Implicit Types (c : Cache) (p m : string) (l : list string).

Lemma inModelToPod_podOf c m p : inModelToPod c m p <-> is_Some (podOf c m p).
Proof. reflexivity. Qed.

Ltac settle :=
  repeat case_decide; pose proof (@is_Some_None v1.Pod); tauto.

Ltac by_cases :=
  intros Hc; intros x y; generalize (Hc x y);
  rewrite ?inModelToPod_podOf, ?podOf_add, ?podOf_delete,
    ?inPodToModel_add, ?inPodToModel_delete;
  clear Hc; settle.

Lemma mappingSound_add c p m : mappingSound c -> mappingSound (addPodAndModelMapping p m c).
Proof. by_cases. Qed.

Lemma mappingSound_delete c p m :
  mappingSound c -> mappingSound (deletePodAndModelMapping p m c).
Proof. by_cases. Qed.

Lemma mirrored_add c p m : mirrored c -> mirrored (addPodAndModelMapping p m c).
Proof. by_cases. Qed.

Lemma mirrored_delete c p m : mirrored c -> mirrored (deletePodAndModelMapping p m c).
Proof. by_cases. Qed.

Lemma mappingSound_set_Pods c v : mappingSound c -> mappingSound (set_Pods v c).
Proof. intros Hc. exact Hc. Qed.

Lemma mirrored_set_Pods c v : mirrored c -> mirrored (set_Pods v c).
Proof. intros Hc. exact Hc. Qed.

Lemma mappingSound_addInstances m l c : mappingSound c -> mappingSound (addInstances m l c).
Proof.
  revert c. induction l as [|p l IH]; intros c Hc; [done|].
  apply IH, mappingSound_add, Hc.
Qed.

Lemma mappingSound_deleteInstances m l c :
  mappingSound c -> mappingSound (deleteInstances m l c).
Proof.
  revert c. induction l as [|p l IH]; intros c Hc; [done|].
  apply IH, mappingSound_delete, Hc.
Qed.

Lemma mirrored_addInstances m l c : mirrored c -> mirrored (addInstances m l c).
Proof.
  revert c. induction l as [|p l IH]; intros c Hc; [done|].
  apply IH, mirrored_add, Hc.
Qed.

Lemma mirrored_deleteInstances m l c : mirrored c -> mirrored (deleteInstances m l c).
Proof.
  revert c. induction l as [|p l IH]; intros c Hc; [done|].
  apply IH, mirrored_delete, Hc.
Qed.

Lemma mappingSound_addPod (pod : v1.Pod) c : mappingSound c -> mappingSound (addPod pod c).
Proof.
  intros Hc. unfold addPod. destruct (v1.Labels pod !! modelIdentifier); [|done].
  by apply mappingSound_add, mappingSound_set_Pods.
Qed.

Lemma mirrored_addPod (pod : v1.Pod) c : mirrored c -> mirrored (addPod pod c).
Proof.
  intros Hc. unfold addPod. destruct (v1.Labels pod !! modelIdentifier); [|done].
  by apply mirrored_add, mirrored_set_Pods.
Qed.

Lemma mappingSound_updatePod (oldPod newPod : v1.Pod) c :
  mappingSound c -> mappingSound (updatePod oldPod newPod c).
Proof.
  intros Hc. unfold updatePod.
  destruct (v1.Labels oldPod !! modelIdentifier), (v1.Labels newPod !! modelIdentifier);
    repeat first [ done | apply mappingSound_add | apply mappingSound_set_Pods
                 | apply mappingSound_delete ].
Qed.

Lemma mirrored_updatePod (oldPod newPod : v1.Pod) c :
  mirrored c -> mirrored (updatePod oldPod newPod c).
Proof.
  intros Hc. unfold updatePod.
  destruct (v1.Labels oldPod !! modelIdentifier), (v1.Labels newPod !! modelIdentifier);
    repeat first [ done | apply mirrored_add | apply mirrored_set_Pods
                 | apply mirrored_delete ].
Qed.

Lemma mappingSound_deletePod (pod : v1.Pod) c :
  mappingSound c -> mappingSound (deletePod pod c).
Proof.
  intros Hc. destruct (v1.Labels pod !! modelIdentifier) as [x|] eqn:Hl.
  - intros m p. generalize (Hc m p).
    rewrite !inModelToPod_podOf, podOf_deletePod, inPodToModel_deletePod by eauto.
    clear Hc. case_decide as Hd.
    + intros _ [? ?]. done.
    + intros Hc Hs. split; [|tauto]. intros ->. tauto.
  - by rewrite deletePod_unlabelled.
Qed.

Lemma mirrored_deletePod (pod : v1.Pod) c : mirrored c -> mirrored (deletePod pod c).
Proof.
  intros Hc. destruct (v1.Labels pod !! modelIdentifier) as [x|] eqn:Hl.
  - intros p m. generalize (Hc p m).
    rewrite !inModelToPod_podOf, podOf_deletePod, inPodToModel_deletePod by eauto.
    clear Hc. case_decide as Hd.
    + intros _. split; [tauto|]. intros [? ?]. done.
    + intros Hc. split; [tauto|]. intros Hs. split; [|tauto]. intros ->. tauto.
  - by rewrite deletePod_unlabelled.
Qed.

Lemma podOf_deleteModelAdapter (model : modelv1alpha1.ModelAdapter) c m p :
  podOf (deleteModelAdapter model c) m p =
  if decide (m = modelv1alpha1.Name model) then None else podOf c m p.
Proof.
  unfold deleteModelAdapter. unfold podOf at 1. simpl.
  case_decide as Hd.
  - subst m. by rewrite lookup_delete_eq.
  - rewrite lookup_delete_ne by done.
    fold (podOf (deleteInstances (modelv1alpha1.Name model)
                   (modelv1alpha1.Instances model) c) m p).
    rewrite podOf_deleteInstances. case_decide; naive_solver.
Qed.

Lemma inPodToModel_deleteModelAdapter (model : modelv1alpha1.ModelAdapter) c p m :
  inPodToModel (deleteModelAdapter model c) p m <->
  inPodToModel c p m
  /\ ~ (m = modelv1alpha1.Name model /\ p ∈ modelv1alpha1.Instances model).
Proof.
  unfold deleteModelAdapter.
  change (inPodToModel (deleteInstances (modelv1alpha1.Name model)
                          (modelv1alpha1.Instances model) c) p m <->
          inPodToModel c p m
          /\ ~ (m = modelv1alpha1.Name model /\ p ∈ modelv1alpha1.Instances model)).
  apply inPodToModel_deleteInstances.
Qed.

Lemma mappingSound_deleteModelAdapter (model : modelv1alpha1.ModelAdapter) c :
  mappingSound c -> mappingSound (deleteModelAdapter model c).
Proof.
  intros Hc m p. generalize (Hc m p).
  rewrite !inModelToPod_podOf, podOf_deleteModelAdapter, inPodToModel_deleteModelAdapter.
  clear Hc. case_decide as Hd.
  - intros _ [? ?]. done.
  - tauto.
Qed.

(** [deleteModelAdapter] keeps the mirror when the deleted object lists
    every pod the model is bound to. *)
Lemma mirrored_deleteModelAdapter (model : modelv1alpha1.ModelAdapter) c :
  mirrored c ->
  (forall p, inModelToPod c (modelv1alpha1.Name model) p ->
             p ∈ modelv1alpha1.Instances model) ->
  mirrored (deleteModelAdapter model c).
Proof.
  intros Hc Hall p m. generalize (Hc p m).
  rewrite !inModelToPod_podOf, podOf_deleteModelAdapter, inPodToModel_deleteModelAdapter.
  case_decide as Hd.
  - subst m. intros Hpm. split; [|intros [? ?]; done].
    intros [Hin Hnot]. exfalso. apply Hnot. split; [done|]. apply Hall, Hpm, Hin.
  - tauto.
Qed.

Lemma mappingSound_NewCache redis prom : mappingSound (NewCache redis prom).
Proof. intros m p [x Hx]. done. Qed.

Lemma mirrored_NewCache redis prom : mirrored (NewCache redis prom).
Proof.
  intros p m. split.
  - unfold inPodToModel. simpl. rewrite lookup_empty. simpl. set_solver.
  - intros [x Hx]. done.
Qed.

Lemma mappingSound_dispatch c e : mappingSound c -> mappingSound (dispatch c e).
Proof.
  intros Hc.
  destruct e; unfold dispatch, addModelAdapter, updateModelAdapter.
  - by apply mappingSound_addPod.
  - by apply mappingSound_updatePod.
  - by apply mappingSound_deletePod.
  - by apply mappingSound_addInstances.
  - by apply mappingSound_addInstances, mappingSound_deleteInstances.
  - by apply mappingSound_deleteModelAdapter.
Qed.

(** Whatever events arrive, every model->pods entry keeps its mirror. *)
Lemma mappingSound_run events c : mappingSound c -> mappingSound (run events c).
Proof.
  revert c. induction events as [|e events IH]; intros c Hc; [done|].
  apply IH, mappingSound_dispatch, Hc.
Qed.

(** Without a model-adapter delete the two maps stay exact mirrors. *)
Lemma mirrored_run events c :
  forallb (fun e => negb (isAdapterDelete e)) events = true ->
  mirrored c -> mirrored (run events c).
Proof.
  revert c. induction events as [|e events IH]; intros c Hev Hc; [done|].
  simpl in Hev. apply andb_true_iff in Hev as [He Hev].
  apply IH; [done|].
  destruct e; unfold dispatch, addModelAdapter, updateModelAdapter.
  - by apply mirrored_addPod.
  - by apply mirrored_updatePod.
  - by apply mirrored_deletePod.
  - by apply mirrored_addInstances.
  - by apply mirrored_addInstances, mirrored_deleteInstances.
  - done.
Qed.

End Mirror.

(** ** deletePod and the mirror, settled *)

(** C6, as stated, fails for a pod object without the model label: after
    [p1] lost its label (an update event), its delete event is ignored and
    the binding ([p1], [lora-a]) stays in both maps; likewise a delete
    carrying an unlabelled [p1] leaves a registered [p1] in place. *)
Lemma deletePod_ignores_unlabelled :
  (let c0 := run [PodAdded p1; ModelAdapterAdded (loraOn ["p1"]);
                  PodUpdated p1 p1Unlabelled] (NewCache None None) in
   let c := deletePod p1Unlabelled c0 in
   inPodToModel c "p1" "lora-a" /\ inModelToPod c "lora-a" "p1")
  /\
  (let c := deletePod p1Unlabelled (addPod p1 (NewCache None None)) in
   is_Some (Pods c !! "p1") /\ inPodToModel c "p1" "llama").
Proof.
  repeat split; by_evaluation.
Qed.

(** C6 (amended): for every pod object that carries the model label, in a
    cache where every model->pods entry has its pod->models entry (every
    cache the event handlers produce), [deletePod] leaves no binding of that
    pod name in either map, no registry entry and no metrics sub-map for it;
    the bindings of other pods are untouched. A pod object without the label
    is ignored. *)
Theorem deletePod_removes_pod (pod : v1.Pod) (c : Cache) :
  mappingSound c ->
  is_Some (v1.Labels pod !! modelIdentifier) ->
  let c' := deletePod pod c in
  PodToModelMapping c' !! v1.Name pod = None
  /\ (forall m, ~ inPodToModel c' (v1.Name pod) m)
  /\ (forall m, podOf c' m (v1.Name pod) = None)
  /\ Pods c' !! v1.Name pod = None
  /\ PodMetrics c' !! v1.Name pod = None
  /\ (forall p m, p ≠ v1.Name pod ->
        (inPodToModel c' p m <-> inPodToModel c p m) /\ podOf c' m p = podOf c m p).
Proof.
  intros Hc Hl. simpl.
  assert (Hfields :
    PodToModelMapping (deletePod pod c) !! v1.Name pod = None
    /\ Pods (deletePod pod c) = delete (v1.Name pod) (Pods c)
    /\ PodMetrics (deletePod pod c) = delete (v1.Name pod) (PodMetrics c)).
  { destruct Hl as [x Hl]. unfold deletePod. rewrite Hl. simpl.
    split; [apply lookup_delete_eq|].
    destruct (PodToModelMapping c !! v1.Name pod);
      by rewrite ?deleteMappingsOfPod_Pods, ?deleteMappingsOfPod_PodMetrics. }
  destruct Hfields as (Hp2m & Hpods & Hpm).
  split; [done|]. split; [|split; [|split; [|split]]].
  - intros m. rewrite inPodToModel_deletePod by done. tauto.
  - intros m. rewrite podOf_deletePod by done.
    case_decide as Hd; [done|].
    destruct (podOf c m (v1.Name pod)) as [x|] eqn:E; [|done].
    exfalso. apply Hd. split; [done|]. apply Hc. unfold inModelToPod. by rewrite E.
  - rewrite Hpods. apply lookup_delete_eq.
  - rewrite Hpm. apply lookup_delete_eq.
  - intros p m Hne. split.
    + rewrite inPodToModel_deletePod by done. tauto.
    + rewrite podOf_deletePod by done. case_decide; [tauto|done].
Qed.

Lemma deletePod_removes_pod_witness :
  mappingSound servingCache
  /\ is_Some (v1.Labels p1 !! modelIdentifier)
  /\ is_Some (PodMetrics servingCache !! "p1")
  /\ inModelToPod servingCache "lora-a" "p1"
  /\ (forall m, podOf (deletePod p1 servingCache) m "p1" = None)
  /\ PodMetrics (deletePod p1 servingCache) !! "p1" = None.
Proof.
  assert (Hs : mappingSound servingCache).
  { exact (mappingSound_run _ _ (mappingSound_NewCache None None)). }
  assert (Hl : is_Some (v1.Labels p1 !! modelIdentifier)) by (by eexists).
  split; [exact Hs|]. split; [exact Hl|].
  split; [by_evaluation|]. split; [by_evaluation|].
  pose proof (deletePod_removes_pod p1 servingCache Hs Hl) as H.
  simpl in H. split; [apply H | apply H].
Defined.

(** The pod/model scenario of the test plan: add [p1] serving [llama], add
    [lora-a] on [p1], delete [lora-a] as it was added. *)
Example pod_model_scenario :
  let c := run [PodAdded p1; ModelAdapterAdded (loraOn ["p1"]);
                ModelAdapterDeleted (loraOn ["p1"])] (NewCache None None) in
  GetModelsForPod "p1" c = Some {["llama"]}
  /\ podOf c "llama" "p1" = Some p1
  /\ CheckModelExists "lora-a" c = false.
Proof.
  repeat split; by_evaluation.
Qed.

(** C1, at the inputs where the code leaves the mirror: [deleteModelAdapter]
    drops the whole model->pods entry but clears pod->models only for the
    pods the deleted object lists. With [p1] serving [llama]: deleting
    [lora-a] with an instance list that no longer names [p1], or deleting an
    adapter that shares the base model's name, leaves a pair in
    [PodToModelMapping] that [ModelToPodMapping] no longer has. *)
Theorem deleteModelAdapter_leaves_stale_pair :
  (let c := run [PodAdded p1; ModelAdapterAdded (loraOn ["p1"]);
                 ModelAdapterDeleted (loraOn [])] (NewCache None None) in
   inPodToModel c "p1" "lora-a" /\ ~ inModelToPod c "lora-a" "p1")
  /\
  (let c := run [PodAdded p1; ModelAdapterAdded (adapter "llama" []);
                 ModelAdapterDeleted (adapter "llama" [])] (NewCache None None) in
   inPodToModel c "p1" "llama" /\ ~ inModelToPod c "llama" "p1").
Proof.
  repeat split; by_evaluation.
Qed.

(** ** Request traces *)

(** *** The index *)

Lemma precisionRequestTrace_nearest :
  nearestFloat64 false float64One 10 = Finite precisionRequestTrace.
Proof. vm_compute. reflexivity. Qed.



Lemma traceIndex_one pf : traceIndex pf 1 = 0.
Proof. vm_compute. reflexivity. Qed.





(** Up to [2^53] the conversion to float64 is exact. *)
Lemma float64OfInt64_exact t :
  Z.abs t <= 2 ^ 53 -> float64OfInt64 t = Finite (t * float64One).
Proof.
  intros Ht. destruct (decide (t = 0)) as [->|Hnz]; [reflexivity|].
  unfold float64OfInt64, nearestFloat64.
  assert (Hone : 0 < float64One) by (unfold float64One; lia).
  set (m := Z.abs t). assert (Hm : 1 <= m) by lia.
  rewrite Z.div_1_r, Z.mul_1_l.
  assert (Hlog : Z.log2 (m * float64One) = Z.log2 m + 1074).
  { unfold float64One. rewrite Z.log2_mul_pow2 by lia. lia. }
  rewrite Hlog.
  assert (Hl : 0 <= Z.log2 m <= 53).
  { split; [apply Z.log2_nonneg|].
    change 53 with (Z.log2 (2 ^ 53)). by apply Z.log2_le_mono. }
  set (p := Z.max 0 (Z.log2 m + 1074 - 52)).
  assert (Hp : p = Z.log2 m + 1022) by lia.
  assert (Hdiv : exists q, m * float64One = q * 2 ^ p /\ 0 <= q).
  { destruct (decide (Z.log2 m = 53)) as [H53|H53].
    - assert (m = 2 ^ 53) as ->.
      { destruct (Z.log2_spec m ltac:(lia)) as [Hlo _]. rewrite H53 in Hlo. lia. }
      exists (2 ^ 52). split; [|lia]. rewrite Hp, H53. unfold float64One.
      rewrite <- !Z.pow_add_r by lia. reflexivity.
    - exists (m * 2 ^ (52 - Z.log2 m)). split; [|apply Z.mul_nonneg_nonneg; [lia|apply Z.pow_nonneg; lia]].
      rewrite Hp, <- Z.mul_assoc, <- Z.pow_add_r by lia. unfold float64One.
      f_equal. f_equal. lia. }
  destruct Hdiv as (q & Hq & Hq0).
  assert (Hpow : 0 < 2 ^ p) by (apply Z.pow_pos_nonneg; lia).
  assert (Hround : roundHalfEven (m * float64One) (2 ^ p) = q).
  { unfold roundHalfEven. rewrite Hq.
    pose proof (Z.div_mul q (2 ^ p) ltac:(lia)) as Hk.
    pose proof (Z.mod_mul q (2 ^ p) ltac:(lia)) as Hr.
    unfold Z.div in Hk. unfold Z.modulo in Hr.
    destruct (Z.div_eucl (q * 2 ^ p) (2 ^ p)) as [k r]. subst k r.
    rewrite (proj2 (Z.ltb_lt _ _)) by lia. reflexivity. }
  rewrite Hround, <- Hq.
  assert (Hsmall : (2 ^ 2098 <=? m * float64One) = false).
  { apply Z.leb_gt. apply Z.le_lt_trans with (2 ^ 53 * float64One); [unfold m; nia|].
    unfold float64One. rewrite <- Z.pow_add_r by lia.
    apply Z.pow_lt_mono_r; lia. }
  rewrite Hsmall. f_equal. unfold m.
  destruct (t <? 0) eqn:E; [apply Z.ltb_lt in E|apply Z.ltb_ge in E]; lia.
Qed.

(** Above [2^53] it is not: neighbouring counts convert to one float64 and
    so share their index, whatever the platform. *)
Lemma traceIndex_large_counts_share pf :
  float64OfInt64 12304196782584384 = float64OfInt64 12304196782584385
  /\ traceIndex pf 12304196782584384 = traceIndex pf 12304196782584385.
Proof.
  assert (H : float64OfInt64 12304196782584384 = float64OfInt64 12304196782584385)
    by (vm_compute; reflexivity).
  split; [exact H|].
  exact (f_equal (fun x => int64OfFloat64 pf
                   (math.Round (divide (math.Log2 pf x) precisionRequestTrace))) H).
Qed.

(** *** The trace map *)

Lemma bump_lookup key trace :
  bump key trace !! key = Some (wrap64 (default 0 (trace !! key) + 1)).
Proof. unfold bump. apply lookup_insert_eq. Qed.

Lemma bump_lookup_ne key k trace : k ≠ key -> bump key trace !! k = trace !! k.
Proof. intros Hne. unfold bump. by rewrite lookup_insert_ne. Qed.

Lemma wrap64_in_range z : - 2 ^ 63 <= z < 2 ^ 63 -> wrap64 z = z.
Proof. intros Hz. unfold wrap64. rewrite Z.mod_small; lia. Qed.

Lemma requestTrace_AddRequestTrace pf model i o c :
  requestTrace (AddRequestTrace pf model i o c) =
  <[model := bump (bucketKey (traceIndex pf i) (traceIndex pf o)) (traceOrMeta model c)]>
    (requestTrace c).
Proof. reflexivity. Qed.




Lemma traceOrMeta_bucket model c k :
  k ≠ keyVersionRequestTrace -> k ≠ keyPrecisionRequestTrace ->
  k ≠ keyWriteRequestTraceIntervalInSeconds ->
  traceOrMeta model c !! k = default ∅ (requestTrace c !! model) !! k.
Proof.
  intros H1 H2 H3. unfold traceOrMeta. case_decide as Hsz; [|done].
  apply map_size_empty_iff in Hsz. rewrite Hsz. unfold traceMeta.
  by rewrite !lookup_insert_ne, lookup_empty by done.
Qed.

(** C7: [AddRequestTrace(model, 1, 1)] bumps the bucket ["0:0"] of that
    model by one and no other bucket: both indices are [log2(1) = 0]. The
    only other entries it may write are the three [meta_] ones, when the
    model had no trace yet; the traces of other models are untouched. *)
Theorem AddRequestTrace_one_one (pf : Platform) (model k model' : string) (c : Cache) :
  let c' := AddRequestTrace pf model 1 1 c in
  let before := default 0 (default ∅ (requestTrace c !! model) !! "0:0") in
  bucketKey (traceIndex pf 1) (traceIndex pf 1) = "0:0"
  /\ (exists tr, requestTrace c' !! model = Some tr
        /\ tr !! "0:0" = Some (wrap64 (before + 1))
        /\ (k ≠ "0:0" -> k ≠ keyVersionRequestTrace -> k ≠ keyPrecisionRequestTrace ->
            k ≠ keyWriteRequestTraceIntervalInSeconds ->
            tr !! k = default ∅ (requestTrace c !! model) !! k))
  /\ (- 2 ^ 63 <= before < 2 ^ 63 - 1 -> wrap64 (before + 1) = before + 1)
  /\ (model' ≠ model -> requestTrace c' !! model' = requestTrace c !! model').
Proof.
  cbv zeta.
  assert (Hkey : bucketKey (traceIndex pf 1) (traceIndex pf 1) = "0:0")
    by (by rewrite traceIndex_one).
  split; [exact Hkey|]. split; [|split].
  - eexists. split; [|split].
    + rewrite requestTrace_AddRequestTrace. apply lookup_insert_eq.
    + rewrite Hkey, bump_lookup. by rewrite traceOrMeta_bucket.
    + intros Hk H1 H2 H3. rewrite Hkey.
      rewrite bump_lookup_ne by done. by apply traceOrMeta_bucket.
  - intros Hb. apply wrap64_in_range. lia.
  - intros Hne. rewrite requestTrace_AddRequestTrace. by rewrite lookup_insert_ne.
Qed.

Lemma AddRequestTrace_one_one_witness :
  "3:4" ≠ "0:0" /\ "other" ≠ "llama-7b" /\ - 2 ^ 63 <= 0 < 2 ^ 63 - 1
  /\ (exists tr,
        requestTrace (AddRequestTrace pf0 "llama-7b" 1 1 (NewCache None None)) !! "llama-7b"
          = Some tr
        /\ tr !! "0:0" = Some 1 /\ tr !! "3:4" = None)
  /\ requestTrace (AddRequestTrace pf0 "llama-7b" 1 1 (NewCache None None)) !! "other" = None.
Proof.
  pose proof (AddRequestTrace_one_one pf0 "llama-7b" "3:4" "other" (NewCache None None)) as H.
  cbv zeta in H. destruct H as (_ & (tr & Htr & H00 & Hk) & Hwrap & Hother).
  assert (H1 : "3:4" ≠ "0:0") by done.
  assert (H2 : "other" ≠ "llama-7b") by done.
  assert (H3 : - 2 ^ 63 <= 0 < 2 ^ 63 - 1) by lia.
  split; [exact H1|]. split; [exact H2|]. split; [exact H3|]. split.
  - exists tr. split; [exact Htr|]. split; [exact H00|].
    apply Hk; done.
  - exact (Hother H2).
Defined.

(** ** Flush *)

(** C3: [writeRequestTraceToStorage] leaves [requestTrace] empty and every
    other field as it was, whatever [json.Marshal] and the store answer for
    any model, and also when the call unwinds on a nil client. *)
Theorem writeRequestTraceToStorage_resets
    (jsonMarshal : gmap string Z -> option string) (redisSetFails : string -> string -> bool)
    (roundT : Z) (c : Cache) :
  let c' := (writeRequestTraceToStorage jsonMarshal redisSetFails roundT c).1.1 in
  requestTrace c' = ∅
  /\ redisClient c' = redisClient c
  /\ prometheusApi c' = prometheusApi c
  /\ initialized c' = initialized c
  /\ subscribers c' = subscribers c
  /\ metrics c' = metrics c
  /\ ModelMetrics c' = ModelMetrics c
  /\ Pods c' = Pods c
  /\ PodMetrics c' = PodMetrics c
  /\ PodToModelMapping c' = PodToModelMapping c
  /\ ModelToPodMapping c' = ModelToPodMapping c.
Proof.
  cbv zeta. unfold writeRequestTraceToStorage.
  destruct (writeTraces jsonMarshal redisSetFails (redisClient c) roundT
              (map_to_list (requestTrace c))) as [sets out].
  simpl. repeat split.
Qed.

(** The three ways a flush can go wrong, on a cache holding one trace: the
    serializer fails (nothing is sent), the store rejects the write, the
    client is nil (the call unwinds). The trace map is empty after each. *)
Lemma writeRequestTraceToStorage_failures :
  let traced redis := AddRequestTrace pf0 "llama-7b" 1 1 (NewCache redis None) in
  writeRequestTraceToStorage marshalNever storeDown 1700000000 (traced (Some redis0))
    = (NewCache (Some redis0) None, [], Returned)
  /\ writeRequestTraceToStorage marshalAlways storeDown 1700000000 (traced (Some redis0))
    = (NewCache (Some redis0) None,
       [mkRedisSet "aibrix:llama-7b_request_trace_1700000000" "{}" 600 true], Returned)
  /\ writeRequestTraceToStorage marshalAlways storeDown 1700000000 (traced None)
    = (NewCache None None, [], Panicked).
Proof.
  cbv zeta. unfold writeRequestTraceToStorage, AddRequestTrace, NewCache. simpl.
  rewrite insert_empty, map_to_list_singleton. simpl. done.
Qed.

(** C9: a tick that finds [requestTrace] empty sends nothing to the store
    and leaves the cache as it is. *)
Theorem traceTick_empty
    (jsonMarshal : gmap string Z -> option string) (redisSetFails : string -> string -> bool)
    (now : Z) (c : Cache) :
  requestTrace c = ∅ ->
  traceTick jsonMarshal redisSetFails now c = (c, [], Returned).
Proof.
  intros Hrt. unfold traceTick. rewrite Hrt.
  destruct (redisClient c); [|done].
  rewrite decide_True; [done|]. apply map_size_empty.
Qed.

Lemma traceTick_empty_witness :
  requestTrace (NewCache (Some redis0) None) = ∅
  /\ traceTick marshalAlways storeDown 1700000007 (NewCache (Some redis0) None)
     = (NewCache (Some redis0) None, [], Returned).
Proof.
  split; [reflexivity|].
  apply (traceTick_empty marshalAlways storeDown 1700000007 (NewCache (Some redis0) None)).
  reflexivity.
Defined.

(** A tick that finds a trace flushes it under the time rounded down to the
    interval. *)
Lemma traceTick_flushes :
  traceTick marshalAlways storeDown 1700000007
    (AddRequestTrace pf0 "llama-7b" 1 1 (NewCache (Some redis0) None))
  = (NewCache (Some redis0) None,
     [mkRedisSet "aibrix:llama-7b_request_trace_1700000000" "{}" 600 true], Returned).
Proof.
  unfold traceTick, writeRequestTraceToStorage, AddRequestTrace, NewCache. simpl.
  rewrite insert_empty, map_size_singleton, map_to_list_singleton. simpl. done.
Qed.

(** ** Subscribers *)

Lemma forEach_aggregateMetric_nil_map (ms : list string) (c : Cache) :
  metrics c = None ->
  forEach aggregateMetric ms c =
  match ms with
  | [] => Ok c
  | _ :: _ => Panic "assignment to entry in nil map"
  end.
Proof.
  intros Hm. destruct ms as [|metric ms]; [done|].
  simpl. unfold aggregateMetric. by rewrite Hm.
Qed.

Lemma forEach_subscribers_nil_map (subs : list metrics.MetricSubscriber) (c : Cache) :
  metrics c = None ->
  forEach (fun subscriber => forEach aggregateMetric (metrics.SubscribedMetrics subscriber))
          subs c =
  if forallb (fun subscriber =>
                bool_decide (metrics.SubscribedMetrics subscriber = [])) subs
  then Ok c else Panic "assignment to entry in nil map".
Proof.
  intros Hm. induction subs as [|sub subs IH]; [done|].
  simpl. rewrite forEach_aggregateMetric_nil_map by done.
  destruct (metrics.SubscribedMetrics sub) as [|metric ms]; simpl; [exact IH|done].
Qed.

(** No event handler and no trace call assigns [c.metrics]. *)
Lemma metrics_addPodAndModelMapping p m c :
  metrics (addPodAndModelMapping p m c) = metrics c.
Proof.
  destruct (Pods c !! p) as [pod|] eqn:Hp.
  - by rewrite (addPodAndModelMapping_known _ _ _ _ Hp).
  - by rewrite addPodAndModelMapping_unknown.
Qed.

Lemma metrics_deletePodAndModelMapping p m c :
  metrics (deletePodAndModelMapping p m c) = metrics c.
Proof. by rewrite deletePodAndModelMapping_alter. Qed.

Lemma metrics_addInstances m l c : metrics (addInstances m l c) = metrics c.
Proof.
  revert c. induction l as [|p l IH]; intros c; [done|].
  change (addInstances m (p :: l) c) with (addInstances m l (addPodAndModelMapping p m c)).
  by rewrite IH, metrics_addPodAndModelMapping.
Qed.

Lemma metrics_deleteInstances m l c : metrics (deleteInstances m l c) = metrics c.
Proof.
  revert c. induction l as [|p l IH]; intros c; [done|].
  change (deleteInstances m (p :: l) c)
    with (deleteInstances m l (deletePodAndModelMapping p m c)).
  by rewrite IH, metrics_deletePodAndModelMapping.
Qed.

Lemma metrics_deleteMappingsOfPod p l c : metrics (deleteMappingsOfPod p l c) = metrics c.
Proof.
  revert c. induction l as [|m l IH]; intros c; [done|].
  change (deleteMappingsOfPod p (m :: l) c)
    with (deleteMappingsOfPod p l (deletePodAndModelMapping p m c)).
  by rewrite IH, metrics_deletePodAndModelMapping.
Qed.

Lemma metrics_dispatch c e : metrics (dispatch c e) = metrics c.
Proof.
  destruct e as [pod|oldPod newPod|pod|model|oldModel newModel|model];
    unfold dispatch, addModelAdapter, updateModelAdapter.
  - unfold addPod. destruct (v1.Labels pod !! modelIdentifier); [|done].
    by rewrite metrics_addPodAndModelMapping.
  - unfold updatePod.
    destruct (v1.Labels oldPod !! modelIdentifier), (v1.Labels newPod !! modelIdentifier);
      by rewrite ?metrics_addPodAndModelMapping; simpl;
         rewrite ?metrics_deletePodAndModelMapping.
  - unfold deletePod. destruct (v1.Labels pod !! modelIdentifier); [|done]. simpl.
    destruct (PodToModelMapping c !! v1.Name pod); [|done].
    by rewrite metrics_deleteMappingsOfPod.
  - by rewrite metrics_addInstances.
  - by rewrite metrics_addInstances, metrics_deleteInstances.
  - unfold deleteModelAdapter. simpl. by rewrite metrics_deleteInstances.
Qed.

Lemma metrics_run events c : metrics (run events c) = metrics c.
Proof.
  revert c. induction events as [|e events IH]; intros c; [done|].
  change (run (e :: events) c) with (run events (dispatch c e)).
  by rewrite IH, metrics_dispatch.
Qed.

(** C10, at the inputs where the code panics: [NewCache] never allocates
    [c.metrics], so on every cache it constructs, whatever events it has
    served since, [AddSubscriber] with a subscriber of at least one metric
    runs into the store into a nil map in [aggregateMetrics]. *)
Theorem AddSubscriber_panics (redis : option RedisClient) (prom : option PrometheusAPI)
    (events : list Event) (subscriber : metrics.MetricSubscriber) :
  metrics.SubscribedMetrics subscriber ≠ [] ->
  AddSubscriber subscriber (run events (NewCache redis prom))
  = Panic "assignment to entry in nil map".
Proof.
  intros Hne. unfold AddSubscriber, aggregateMetrics.
  rewrite forEach_subscribers_nil_map by (simpl; by rewrite metrics_run).
  change (subscribers (set_subscribers ?v ?c)) with v.
  rewrite forallb_app. simpl.
  rewrite bool_decide_false by done.
  by rewrite andb_false_r.
Qed.

Lemma AddSubscriber_panics_witness :
  metrics.SubscribedMetrics runningSubscriber ≠ []
  /\ AddSubscriber runningSubscriber (run [PodAdded p1] (NewCache (Some redis0) None))
     = Panic "assignment to entry in nil map".
Proof.
  assert (Hne : metrics.SubscribedMetrics runningSubscriber ≠ []) by done.
  split; [exact Hne|].
  exact (AddSubscriber_panics (Some redis0) None [PodAdded p1] runningSubscriber Hne).
Defined.

(** ** Pending counters under interleaving *)

Module TraceWindowFacts.
Import TraceWindow.

(** The model against the basic test of the trace cache: one admission, its
    completion, one trace of a single input and output token. *)
Example basic_lifecycle :
  let admittedState := (AddRequestCount "llama-7b" newTraceCache).1 in
  let t := (AddRequestCount "llama-7b" newTraceCache).2 in
  let completed := DoneRequestCount "llama-7b" t admittedState in
  let traced := AddRequestTrace "llama-7b" 1 1 completed in
  let counters s :=
    (fun w => (numKeys w, numRequests w, completedRequests w))
      <$> requestTrace s !! "llama-7b" in
  numRequestsTraces admittedState = 1
  /\ counters admittedState = Some (0, 1, 0)
  /\ pending "llama-7b" admittedState = 1
  /\ numRequestsTraces completed = 1
  /\ counters completed = Some (0, 1, 1)
  /\ pending "llama-7b" completed = 0
  /\ counters traced = Some (1, 1, 1)
  /\ (requestTrace traced !! "llama-7b") ≫= (fun w => trace w !! "0:0") = Some 1.
Proof.
  repeat split; by_evaluation.
Qed.

Lemma wrap32_idemp x d : wrap32 (wrap32 x + d) = wrap32 (x + d).
Proof.
  unfold wrap32.
  replace ((x + 2 ^ 31) `mod` 2 ^ 32 - 2 ^ 31 + d + 2 ^ 31)
    with ((x + 2 ^ 31) `mod` 2 ^ 32 + d) by lia.
  rewrite Zplus_mod_idemp_l. f_equal. f_equal. lia.
Qed.

Lemma pending_addPending model d s :
  pending model (addPending model d s) = wrap32 (pending model s + d).
Proof. unfold pending at 1, addPending. simpl. by rewrite lookup_insert_eq. Qed.

Lemma pending_AddRequestCount model s :
  pending model (AddRequestCount model s).1 = wrap32 (pending model s + 1).
Proof.
  unfold AddRequestCount.
  destruct (requestTrace (addPending model 1 s) !! model); simpl;
    unfold pending at 1; simpl; by rewrite lookup_insert_eq.
Qed.

Lemma pending_DoneRequestCount model t s :
  pending model (DoneRequestCount model t s) = wrap32 (pending model s - 1).
Proof.
  unfold DoneRequestCount.
  destruct (requestTrace (addPending model (-1) s) !! model) as [w|]; simpl;
    [destruct (term w =? t)|]; simpl;
    unfold pending at 1; simpl; by rewrite lookup_insert_eq.
Qed.

Lemma pending_bumpBucket model t i o s :
  pending model (bumpBucket model t i o s) = pending model s.
Proof.
  unfold bumpBucket. destruct ((i <? 0) || (o <? 0)); [done|].
  destruct (requestTrace s !! model) as [w|]; [|done].
  by destruct (term w =? t).
Qed.

Lemma pending_finish model d t s :
  pending model (finish model d t s) = wrap32 (pending model s - 1).
Proof.
  destruct d as [|i o]; simpl.
  - apply pending_DoneRequestCount.
  - unfold DoneRequestTrace. by rewrite pending_bumpBucket, pending_DoneRequestCount.
Qed.

Lemma pending_rotate model s : pending model (rotate s) = pending model s.
Proof. reflexivity. Qed.

Lemma inFlight_cons w ws :
  inFlight (w :: ws) = (match admitted w with Some _ => 1 | None => 0 end) + inFlight ws.
Proof. reflexivity. Qed.

Lemma inFlight_insert ws i w w' :
  ws !! i = Some w ->
  inFlight (<[i := w']> ws) =
  inFlight ws - (match admitted w with Some _ => 1 | None => 0 end)
              + (match admitted w' with Some _ => 1 | None => 0 end).
Proof.
  revert i. induction ws as [|w0 ws IH]; intros i Hi; [done|].
  destruct i as [|i]; simpl in Hi.
  - injection Hi as ->. change (<[0%nat := w']> (w :: ws)) with (w' :: ws).
    rewrite !inFlight_cons. lia.
  - change (<[S i := w']> (w0 :: ws)) with (w0 :: <[i := w']> ws).
    rewrite !inFlight_cons, (IH i Hi). lia.
Qed.

Lemma counted_step model cfg a cfg' :
  counted model cfg -> step model cfg a = Some cfg' -> counted model cfg'.
Proof.
  unfold counted. destruct cfg as [s ws]. intros Hinv Hstep.
  destruct a as [i|]; simpl in Hstep.
  - destruct (ws !! i) as [w|] eqn:Hw; [|done].
    destruct w as [[|d rest] [t|]]; simpl in Hstep; try done.
    + injection Hstep as <-. simpl.
      rewrite pending_finish, (inFlight_insert _ _ _ _ Hw). simpl in *.
      rewrite Hinv, <- (Z.add_opp_r _ 1), wrap32_idemp. f_equal. lia.
    + pose proof (pending_AddRequestCount model s) as Hadd.
      destruct (AddRequestCount model s) as [s' t]. injection Hstep as <-. simpl in *.
      rewrite Hadd, (inFlight_insert _ _ _ _ Hw). simpl.
      rewrite Hinv, wrap32_idemp. f_equal. lia.
  - injection Hstep as <-. simpl in *. by rewrite pending_rotate.
Qed.

Lemma counted_exec model schedule cfg cfg' :
  counted model cfg -> exec model schedule cfg = Some cfg' -> counted model cfg'.
Proof.
  revert cfg. induction schedule as [|a schedule IH]; intros cfg Hinv Hexec; simpl in Hexec.
  - by injection Hexec as <-.
  - destruct (step model cfg a) as [cfg1|] eqn:Hstep; [|done].
    eapply IH; [|exact Hexec]. eapply counted_step; eauto.
Qed.

Lemma counted_start model programs : counted model (start programs).
Proof.
  unfold counted, start. simpl.
  assert (H : inFlight ((fun p => mkWorker p None) <$> programs) = 0).
  { induction programs as [|p programs IH]; [done|].
    rewrite fmap_cons, inFlight_cons, IH. done. }
  by rewrite H.
Qed.

Lemma inFlight_quiescent cfg : quiescent cfg -> inFlight cfg.2 = 0.
Proof.
  unfold quiescent. destruct cfg as [s ws]. simpl.
  induction 1 as [|w ws [_ Hw] _ IH]; [done|].
  rewrite inFlight_cons, Hw, IH. done.
Qed.

(** C2: on the interleaving model of the trace-window calls (each call one
    atomic step), whatever the order in which the workers' paired calls --
    [AddRequestCount], then [DoneRequestCount] or [DoneRequestTrace] with the
    term it returned -- and the flusher's rotations are scheduled, the
    pending counter of the model is 0 once every worker has finished. M
    workers of N iterations are [programs] of length M with lists of length
    N. *)
Theorem pending_zero_at_quiescence (model : string) (programs : list (list DoneCall))
    (schedule : list Action) (cfg : Config) :
  exec model schedule (start programs) = Some cfg ->
  quiescent cfg ->
  pending model cfg.1 = 0.
Proof.
  intros Hexec Hq.
  pose proof (counted_exec _ _ _ _ (counted_start model programs) Hexec) as Hinv.
  unfold counted in Hinv. by rewrite Hinv, inFlight_quiescent.
Qed.

Lemma pending_zero_at_quiescence_witness :
  exists cfg,
    exec "model" interleaved (start twoByTwo) = Some cfg
    /\ quiescent cfg
    /\ pending "model" cfg.1 = 0.
Proof.
  destruct (exec "model" interleaved (start twoByTwo)) as [cfg|] eqn:Hexec;
    [|vm_compute in Hexec; discriminate].
  assert (Hq : quiescent cfg).
  { vm_compute in Hexec. injection Hexec as <-. repeat constructor. }
  exists cfg. split; [reflexivity|]. split; [exact Hq|].
  exact (pending_zero_at_quiescence "model" twoByTwo interleaved cfg Hexec Hq).
Defined.

End TraceWindowFacts.

(** * Further properties of the code *)

(** ** Pod events and the registry *)

Section PodEvents.
Implicit Types (c : Cache) (p m : string) (l : list string) (pod : v1.Pod).

Lemma inPodToModel_set_Pods c v p m : inPodToModel (set_Pods v c) p m <-> inPodToModel c p m.
Proof. reflexivity. Qed.

Lemma podOf_set_Pods c v m p : podOf (set_Pods v c) m p = podOf c m p.
Proof. reflexivity. Qed.

Lemma Pods_updatePod (oldPod newPod : v1.Pod) c :
  Pods (updatePod oldPod newPod c) =
  let kept :=
    match v1.Labels oldPod !! modelIdentifier with
    | Some _ => delete (v1.Name oldPod) (Pods c)
    | None => Pods c
    end in
  match v1.Labels newPod !! modelIdentifier with
  | Some _ => <[v1.Name newPod := newPod]> kept
  | None => kept
  end.
Proof.
  unfold updatePod.
  destruct (v1.Labels oldPod !! modelIdentifier), (v1.Labels newPod !! modelIdentifier);
    simpl; rewrite ?addPodAndModelMapping_Pods; simpl;
    rewrite ?deletePodAndModelMapping_Pods; reflexivity.
Qed.

Lemma Pods_deletePod pod c :
  Pods (deletePod pod c) =
  match v1.Labels pod !! modelIdentifier with
  | Some _ => delete (v1.Name pod) (Pods c)
  | None => Pods c
  end.
Proof.
  unfold deletePod. destruct (v1.Labels pod !! modelIdentifier); [|done]. simpl.
  destruct (PodToModelMapping c !! v1.Name pod); by rewrite ?deleteMappingsOfPod_Pods.
Qed.

Lemma Pods_addPod pod c :
  Pods (addPod pod c) =
  match v1.Labels pod !! modelIdentifier with
  | Some _ => <[v1.Name pod := pod]> (Pods c)
  | None => Pods c
  end.
Proof.
  unfold addPod. destruct (v1.Labels pod !! modelIdentifier); [|done].
  by rewrite addPodAndModelMapping_Pods.
Qed.

Lemma registryKeyed_insert c0 c pod :
  is_Some (v1.Labels pod !! modelIdentifier) ->
  registryKeyed c0 -> Pods c = <[v1.Name pod := pod]> (Pods c0) -> registryKeyed c.
Proof.
  intros Hl Hc HP name q. rewrite HP.
  destruct (decide (v1.Name pod = name)) as [<-|Hne].
  - rewrite lookup_insert_eq. by intros [= <-].
  - rewrite lookup_insert_ne by done. apply Hc.
Qed.

Lemma registryKeyed_delete c0 c name :
  registryKeyed c0 -> Pods c = delete name (Pods c0) -> registryKeyed c.
Proof.
  intros Hc HP n q. rewrite HP.
  destruct (decide (name = n)) as [<-|Hne].
  - by rewrite lookup_delete_eq.
  - rewrite lookup_delete_ne by done. apply Hc.
Qed.

Lemma registryKeyed_same c0 c : registryKeyed c0 -> Pods c = Pods c0 -> registryKeyed c.
Proof. intros Hc HP n q. rewrite HP. apply Hc. Qed.

Lemma registryKeyed_dispatch c e : registryKeyed c -> registryKeyed (dispatch c e).
Proof.
  intros Hc.
  destruct e as [pod|oldPod newPod|pod|model|oldModel newModel|model];
    unfold dispatch, addModelAdapter, updateModelAdapter.
  - pose proof (Pods_addPod pod c) as HP.
    destruct (v1.Labels pod !! modelIdentifier) eqn:Hl.
    + by eapply registryKeyed_insert.
    + by eapply registryKeyed_same.
  - pose proof (Pods_updatePod oldPod newPod c) as HP. simpl in HP.
    assert (Hkept : registryKeyed
      (set_Pods match v1.Labels oldPod !! modelIdentifier with
                | Some _ => delete (v1.Name oldPod) (Pods c)
                | None => Pods c
                end c)).
    { destruct (v1.Labels oldPod !! modelIdentifier).
      - by eapply registryKeyed_delete.
      - by eapply registryKeyed_same. }
    destruct (v1.Labels newPod !! modelIdentifier) eqn:Hl.
    + by eapply registryKeyed_insert.
    + by eapply registryKeyed_same.
  - pose proof (Pods_deletePod pod c) as HP.
    destruct (v1.Labels pod !! modelIdentifier).
    + by eapply registryKeyed_delete.
    + by eapply registryKeyed_same.
  - eapply registryKeyed_same; [done|]. apply addInstances_Pods.
  - eapply registryKeyed_same; [done|].
    by rewrite addInstances_Pods, deleteInstances_Pods.
  - eapply registryKeyed_same; [done|]. unfold deleteModelAdapter. simpl.
    apply deleteInstances_Pods.
Qed.

End PodEvents.

(** X1: whatever pod and model-adapter events a constructed cache has
    served, every pod in the registry is stored under its own name and
    carries the model label: [GetPod(name)] never returns a pod of another
    name or an unlabelled one. *)
Theorem registry_keyed_after_events (redis : option RedisClient)
    (prom : option PrometheusAPI) (events : list Event) :
  registryKeyed (run events (NewCache redis prom)).
Proof.
  assert (H : forall c, registryKeyed c -> registryKeyed (run events c)).
  { induction events as [|e events IH]; intros c Hc; [done|].
    apply IH, registryKeyed_dispatch, Hc. }
  apply H. intros name pod. simpl. by rewrite lookup_empty.
Qed.

(** X2: whatever events a constructed cache has served, a pod that
    [ModelToPodMapping] lists under a model has that model in its
    [PodToModelMapping] entry. *)
Theorem model_entries_have_pod_entries (redis : option RedisClient)
    (prom : option PrometheusAPI) (events : list Event) (modelName podName : string) :
  let c := run events (NewCache redis prom) in
  (exists pods pod, GetPodsForModel modelName c = Some pods /\ pods !! podName = Some pod) ->
  exists models, GetModelsForPod podName c = Some models /\ modelName ∈ models.
Proof.
  cbv zeta. intros (pods & pod & Hpods & Hpod).
  pose proof (mappingSound_run events _ (mappingSound_NewCache redis prom)
                modelName podName) as Hs.
  unfold inModelToPod, podOf, inPodToModel in Hs.
  unfold GetPodsForModel in Hpods. unfold GetModelsForPod.
  rewrite Hpods in Hs. simpl in Hs. rewrite Hpod in Hs.
  specialize (Hs ltac:(by eexists)).
  destruct (PodToModelMapping (run events (NewCache redis prom)) !! podName) as [models|].
  - by exists models.
  - simpl in Hs. set_solver.
Qed.

Lemma model_entries_have_pod_entries_witness :
  let c := run [PodAdded p1; ModelAdapterAdded (loraOn ["p1"])] (NewCache None None) in
  (exists pods pod, GetPodsForModel "lora-a" c = Some pods /\ pods !! "p1" = Some pod)
  /\ exists models, GetModelsForPod "p1" c = Some models /\ "lora-a" ∈ models.
Proof.
  cbv zeta.
  assert (H : exists pods pod,
    GetPodsForModel "lora-a"
      (run [PodAdded p1; ModelAdapterAdded (loraOn ["p1"])] (NewCache None None))
      = Some pods /\ pods !! "p1" = Some pod).
  { eexists _, p1. split; [reflexivity|]. by vm_compute. }
  split; [exact H|].
  exact (model_entries_have_pod_entries None None
           [PodAdded p1; ModelAdapterAdded (loraOn ["p1"])] "lora-a" "p1" H).
Defined.

(** X3: as long as no model adapter is deleted, the two maps of a
    constructed cache hold exactly the same (pod, model) pairs after every
    event sequence. *)
Theorem mirror_kept_without_adapter_delete (redis : option RedisClient)
    (prom : option PrometheusAPI) (events : list Event) (podName modelName : string) :
  forallb (fun e => negb (isAdapterDelete e)) events = true ->
  let c := run events (NewCache redis prom) in
  modelName ∈ default ∅ (GetModelsForPod podName c)
  <-> is_Some (GetPodsForModel modelName c ≫= (fun pods => pods !! podName)).
Proof.
  intros Hev. cbv zeta.
  exact (mirrored_run events _ Hev (mirrored_NewCache redis prom) podName modelName).
Qed.

Lemma mirror_kept_without_adapter_delete_witness :
  forallb (fun e => negb (isAdapterDelete e))
    [PodAdded p1; ModelAdapterAdded (loraOn ["p1"]); PodUpdated p1 p1Unlabelled] = true
  /\ let c := run [PodAdded p1; ModelAdapterAdded (loraOn ["p1"]);
                   PodUpdated p1 p1Unlabelled] (NewCache None None) in
     ("lora-a" ∈ default ∅ (GetModelsForPod "p1" c)
      <-> is_Some (GetPodsForModel "lora-a" c ≫= (fun pods => pods !! "p1"))).
Proof.
  split; [reflexivity|].
  exact (mirror_kept_without_adapter_delete None None
           [PodAdded p1; ModelAdapterAdded (loraOn ["p1"]); PodUpdated p1 p1Unlabelled]
           "p1" "lora-a" eq_refl).
Defined.

(** X4: [deleteModelAdapter] keeps the two maps mirrored when the deleted
    object lists every pod the model is bound to; it then leaves no binding
    of the model at all. *)
Theorem deleteModelAdapter_keeps_mirror_when_listed
    (model : modelv1alpha1.ModelAdapter) (c : Cache) :
  mirrored c ->
  (forall p, inModelToPod c (modelv1alpha1.Name model) p ->
             p ∈ modelv1alpha1.Instances model) ->
  let c' := deleteModelAdapter model c in
  mirrored c'
  /\ CheckModelExists (modelv1alpha1.Name model) c' = false
  /\ forall p, ~ inPodToModel c' p (modelv1alpha1.Name model).
Proof.
  intros Hc Hall. cbv zeta. split; [by apply mirrored_deleteModelAdapter|]. split.
  - unfold CheckModelExists, deleteModelAdapter. simpl.
    rewrite lookup_delete_eq. apply bool_decide_eq_false. by intros [? ?].
  - intros p. rewrite inPodToModel_deleteModelAdapter. intros [Hin Hnot].
    apply Hnot. split; [done|]. by apply Hall, Hc.
Qed.

Lemma deleteModelAdapter_keeps_mirror_when_listed_witness :
  let c := run [PodAdded p1; ModelAdapterAdded (loraOn ["p1"])] (NewCache None None) in
  mirrored c
  /\ (forall p, inModelToPod c "lora-a" p -> p ∈ ["p1"])
  /\ inPodToModel c "p1" "lora-a"
  /\ mirrored (deleteModelAdapter (loraOn ["p1"]) c)
  /\ forall p, ~ inPodToModel (deleteModelAdapter (loraOn ["p1"]) c) p "lora-a".
Proof.
  cbv zeta.
  set (c := run [PodAdded p1; ModelAdapterAdded (loraOn ["p1"])] (NewCache None None)).
  assert (Hm : mirrored c).
  { exact (mirrored_run [PodAdded p1; ModelAdapterAdded (loraOn ["p1"])] _ eq_refl
             (mirrored_NewCache None None)). }
  assert (Hall : forall p, inModelToPod c "lora-a" p -> p ∈ ["p1"]).
  { intros p. unfold c, run, foldl, dispatch, addModelAdapter, inModelToPod.
    rewrite podOf_addInstances. case_decide as Hd; [tauto|].
    intros [x Hx]. by vm_compute in Hx. }
  pose proof (deleteModelAdapter_keeps_mirror_when_listed (loraOn ["p1"]) c Hm Hall) as H.
  cbv zeta in H. destruct H as (H1 & _ & H3).
  split; [exact Hm|]. split; [exact Hall|]. split; [by_evaluation|].
  split; [exact H1|exact H3].
Defined.

(** X5: what [updatePod(old, new)] does to the bindings and the registry.
    The base-model binding that [old]'s label names is removed and the one
    [new]'s label names is added; the registry loses [old]'s name if [old]
    is labelled and then holds [new] if [new] is labelled. Every other
    binding of the pod -- its adapters -- stays as it was, in
    [ModelToPodMapping] still with the pod object stored before. *)
Theorem updatePod_bindings (oldPod newPod : v1.Pod) (c : Cache) (p m : string) :
  let c' := updatePod oldPod newPod c in
  let added := v1.Labels newPod !! modelIdentifier = Some m /\ p = v1.Name newPod in
  let removed := v1.Labels oldPod !! modelIdentifier = Some m /\ p = v1.Name oldPod in
  (inPodToModel c' p m <-> added \/ (inPodToModel c p m /\ ~ removed))
  /\ podOf c' m p =
     (if decide added then Some newPod
      else if decide removed then None
      else podOf c m p)
  /\ GetPods c' =
     (let kept := match v1.Labels oldPod !! modelIdentifier with
                  | Some _ => delete (v1.Name oldPod) (Pods c)
                  | None => Pods c
                  end in
      match v1.Labels newPod !! modelIdentifier with
      | Some _ => <[v1.Name newPod := newPod]> kept
      | None => kept
      end).
Proof.
  cbv zeta. split; [|split].
  - unfold updatePod.
    destruct (v1.Labels oldPod !! modelIdentifier) as [om|] eqn:Ho,
             (v1.Labels newPod !! modelIdentifier) as [nm|] eqn:Hn;
      rewrite ?inPodToModel_add, ?inPodToModel_set_Pods, ?inPodToModel_delete,
        ?inPodToModel_set_Pods; simpl; rewrite ?lookup_insert_eq;
      try (pose proof (@is_Some_None v1.Pod)); naive_solver.
  - unfold updatePod.
    destruct (v1.Labels oldPod !! modelIdentifier) as [om|] eqn:Ho,
             (v1.Labels newPod !! modelIdentifier) as [nm|] eqn:Hn;
      rewrite ?podOf_add, ?podOf_set_Pods, ?podOf_delete, ?podOf_set_Pods; simpl;
      rewrite ?lookup_insert_eq;
      repeat case_decide; try done; exfalso; naive_solver.
  - unfold GetPods. by rewrite Pods_updatePod.
Qed.

(** X6: an update event whose old and new object are the same pod does
    exactly what adding that pod does (both ignore an unlabelled pod). *)
Theorem updatePod_same_pod_is_addPod (pod : v1.Pod) (c : Cache) :
  updatePod pod pod c = addPod pod c.
Proof.
  destruct (v1.Labels pod !! modelIdentifier) as [m|] eqn:Hl.
  - rewrite (addPod_labelled pod c m Hl).
    unfold updatePod. rewrite Hl.
    erewrite addPodAndModelMapping_known by (simpl; apply lookup_insert_eq).
    rewrite deletePodAndModelMapping_alter.
    unfold set_ModelToPodMapping, set_PodToModelMapping, set_Pods. simpl.
    rewrite !lookup_alter, !decide_True by done.
    f_equal.
    + by rewrite insert_delete_eq.
    + apply map_eq. intros k. destruct (decide (v1.Name pod = k)) as [<-|Hne].
      * rewrite !lookup_insert_eq. f_equal.
        destruct (PodToModelMapping c !! v1.Name pod) as [models|]; simpl; [|done].
        apply set_eq. intros x. rewrite !elem_of_union, elem_of_difference.
        destruct (decide (x = m)) as [->|]; set_solver.
      * rewrite !lookup_insert_ne, lookup_alter_ne by done. done.
    + apply map_eq. intros k. destruct (decide (m = k)) as [<-|Hne].
      * rewrite !lookup_insert_eq. f_equal.
        destruct (ModelToPodMapping c !! m) as [pods|]; simpl; [|done].
        by rewrite insert_delete_eq.
      * rewrite !lookup_insert_ne, lookup_alter_ne by done. done.
  - unfold updatePod, addPod. by rewrite Hl.
Qed.

Section ModelKeys.
Implicit Types (c : Cache) (p m k : string) (l : list string).

Lemma modelKey_add c p m k :
  is_Some (ModelToPodMapping c !! k) ->
  is_Some (ModelToPodMapping (addPodAndModelMapping p m c) !! k).
Proof.
  intros Hk. destruct (Pods c !! p) as [pod|] eqn:Hp.
  - rewrite (addPodAndModelMapping_known _ _ _ _ Hp). simpl.
    destruct (decide (m = k)) as [->|Hne].
    + rewrite lookup_insert_eq. by eexists.
    + by rewrite lookup_insert_ne.
  - by rewrite addPodAndModelMapping_unknown.
Qed.

Lemma modelKey_delete c p m k :
  is_Some (ModelToPodMapping c !! k) ->
  is_Some (ModelToPodMapping (deletePodAndModelMapping p m c) !! k).
Proof.
  intros [pods Hk]. rewrite deletePodAndModelMapping_alter. simpl.
  rewrite lookup_alter. case_decide as Hd.
  - subst k. rewrite Hk. by eexists.
  - by eexists.
Qed.

Lemma modelKey_addInstances m l c k :
  is_Some (ModelToPodMapping c !! k) ->
  is_Some (ModelToPodMapping (addInstances m l c) !! k).
Proof.
  revert c. induction l as [|p l IH]; intros c Hk; [done|].
  by apply IH, modelKey_add.
Qed.

Lemma modelKey_deleteInstances m l c k :
  is_Some (ModelToPodMapping c !! k) ->
  is_Some (ModelToPodMapping (deleteInstances m l c) !! k).
Proof.
  revert c. induction l as [|p l IH]; intros c Hk; [done|].
  by apply IH, modelKey_delete.
Qed.

Lemma modelKey_deleteMappingsOfPod p l c k :
  is_Some (ModelToPodMapping c !! k) ->
  is_Some (ModelToPodMapping (deleteMappingsOfPod p l c) !! k).
Proof.
  revert c. induction l as [|m l IH]; intros c Hk; [done|].
  by apply IH, modelKey_delete.
Qed.

End ModelKeys.

(** X7: only a model-adapter delete removes a model from
    [ModelToPodMapping]. Every other event keeps [CheckModelExists] true
    once it is: deleting the last pod of a model leaves the model's entry in
    place, empty, so [GetPodsForModel] answers with an empty map and no
    error. *)
Theorem model_entry_survives_pod_events (c : Cache) (e : Event) (modelName : string) :
  isAdapterDelete e = false ->
  CheckModelExists modelName c = true ->
  CheckModelExists modelName (dispatch c e) = true.
Proof.
  unfold CheckModelExists. intros He Hk.
  apply bool_decide_eq_true in Hk. apply bool_decide_eq_true.
  destruct e as [pod|oldPod newPod|pod|model|oldModel newModel|model];
    unfold dispatch, addModelAdapter, updateModelAdapter; try done.
  - unfold addPod. destruct (v1.Labels pod !! modelIdentifier); [|done].
    by apply modelKey_add.
  - unfold updatePod.
    destruct (v1.Labels oldPod !! modelIdentifier), (v1.Labels newPod !! modelIdentifier);
      try done; repeat first [ apply modelKey_add | apply modelKey_delete ]; done.
  - unfold deletePod. destruct (v1.Labels pod !! modelIdentifier); [|done]. simpl.
    destruct (PodToModelMapping c !! v1.Name pod); [|done].
    by apply modelKey_deleteMappingsOfPod.
  - by apply modelKey_addInstances.
  - by apply modelKey_addInstances, modelKey_deleteInstances.
Qed.

Lemma model_entry_survives_pod_events_witness :
  isAdapterDelete (PodDeleted p1) = false
  /\ CheckModelExists "llama" (addPod p1 (NewCache None None)) = true
  /\ CheckModelExists "llama" (dispatch (addPod p1 (NewCache None None)) (PodDeleted p1)) = true
  /\ size <$> GetPodsForModel "llama" (deletePod p1 (addPod p1 (NewCache None None)))
     = Some 0%nat.
Proof.
  assert (H1 : isAdapterDelete (PodDeleted p1) = false) by reflexivity.
  assert (H2 : CheckModelExists "llama" (addPod p1 (NewCache None None)) = true)
    by (by vm_compute).
  split; [exact H1|]. split; [exact H2|]. split.
  - exact (model_entry_survives_pod_events _ (PodDeleted p1) "llama" H1 H2).
  - by_evaluation.
Defined.

(** X8: once a labelled pod is added, every read finds it: [GetPod] returns
    the pod object, [GetPodsForModel] of its model holds it under its name,
    [GetModelsForPod] lists the model and [CheckModelExists] is true. *)
Theorem addPod_then_read (pod : v1.Pod) (modelName : string) (c : Cache) :
  v1.Labels pod !! modelIdentifier = Some modelName ->
  let c' := addPod pod c in
  GetPod (v1.Name pod) c' = inl pod
  /\ (exists pods, GetPodsForModel modelName c' = Some pods
                   /\ pods !! v1.Name pod = Some pod)
  /\ (exists models, GetModelsForPod (v1.Name pod) c' = Some models /\ modelName ∈ models)
  /\ CheckModelExists modelName c' = true.
Proof.
  intros Hl. cbv zeta. rewrite (addPod_labelled pod c modelName Hl).
  unfold GetPod, GetPodsForModel, GetModelsForPod, CheckModelExists. simpl.
  rewrite !lookup_insert_eq. split; [done|]. split; [|split].
  - eexists. split; [done|]. apply lookup_insert_eq.
  - eexists. split; [done|]. set_solver.
  - apply bool_decide_eq_true. by eexists.
Qed.

Lemma addPod_then_read_witness :
  v1.Labels p1 !! modelIdentifier = Some "llama"
  /\ GetPod "p1" (addPod p1 servingCache) = inl p1
  /\ CheckModelExists "llama" (addPod p1 servingCache) = true.
Proof.
  assert (Hl : v1.Labels p1 !! modelIdentifier = Some "llama") by reflexivity.
  pose proof (addPod_then_read p1 "llama" servingCache Hl) as H.
  cbv zeta in H. destruct H as (H1 & _ & _ & H4).
  split; [exact Hl|]. split; [exact H1|exact H4].
Defined.

(** ** Bucket keys *)

Section Keys.

Lemma allChars_app ok s1 s2 :
  allChars ok (s1 +:+ s2) = allChars ok s1 && allChars ok s2.
Proof.
  induction s1 as [|a s1 IH]; simpl; [done|]. by rewrite IH, andb_assoc.
Qed.

Lemma pretty_N_char_digit n : isDigitOrDash (pretty_N_char n) = true.
Proof. unfold pretty_N_char. by repeat case_match. Qed.

Lemma pretty_N_go_digits x s :
  allChars isDigitOrDash s = true -> allChars isDigitOrDash (pretty_N_go x s) = true.
Proof.
  revert s. induction (N.lt_wf_0 x) as [x _ IH]; intros s Hs.
  assert (x = 0 \/ 0 < x)%N as [->|Hx] by lia.
  - by rewrite pretty_N_go_0.
  - rewrite pretty_N_go_step by done. apply IH.
    + by apply N.div_lt.
    + simpl. by rewrite pretty_N_char_digit, Hs.
Qed.

Lemma pretty_Z_digits (z : Z) : allChars isDigitOrDash (pretty z) = true.
Proof.
  destruct z as [|x|x]; [done| |].
  - unfold pretty, pretty_Z, pretty, pretty_positive, pretty, pretty_N.
    rewrite decide_False by done. by apply pretty_N_go_digits.
  - unfold pretty, pretty_Z, pretty, pretty_positive, pretty, pretty_N.
    rewrite decide_False by done. simpl. by apply pretty_N_go_digits.
Qed.

(** A string splits in one way only at a separator that its first part
    cannot contain. *)
Lemma split_at_separator ok sep s1 s1' s2 s2' :
  ok sep = false ->
  allChars ok s1 = true -> allChars ok s1' = true ->
  s1 +:+ String sep s2 = s1' +:+ String sep s2' ->
  s1 = s1' /\ s2 = s2'.
Proof.
  intros Hsep. revert s1'.
  induction s1 as [|a s1 IH]; intros [|a' s1'] H1 H1' Heq; simpl in *.
  - by injection Heq as ->.
  - injection Heq as <- _. by rewrite Hsep in H1'.
  - injection Heq as -> _. by rewrite Hsep in H1.
  - injection Heq as -> Heq.
    apply andb_true_iff in H1 as [_ H1]. apply andb_true_iff in H1' as [_ H1'].
    destruct (IH s1' H1 H1' Heq) as [-> ->]. done.
Qed.

Lemma bucketKey_inj i o i' o' :
  bucketKey i o = bucketKey i' o' -> i = i' /\ o = o'.
Proof.
  unfold bucketKey. intros Heq.
  apply (split_at_separator isDigitOrDash) in Heq as [Hi Ho];
    [|done|apply pretty_Z_digits..].
  split; by apply (inj pretty).
Qed.

Lemma bucketKey_head i o :
  exists a rest, bucketKey i o = String a rest /\ a ≠ "m"%char.
Proof.
  unfold bucketKey. pose proof (pretty_Z_digits i) as Hd.
  destruct (pretty i) as [|a rest]; simpl.
  - eexists _, _. split; [done|]. done.
  - exists a, (rest +:+ String ":" (pretty o)). split; [done|].
    intros ->. simpl in Hd. done.
Qed.

Lemma bucketKey_not_meta i o :
  bucketKey i o ≠ keyVersionRequestTrace
  /\ bucketKey i o ≠ keyPrecisionRequestTrace
  /\ bucketKey i o ≠ keyWriteRequestTraceIntervalInSeconds.
Proof.
  destruct (bucketKey_head i o) as (a & rest & -> & Ha).
  repeat split; intros [= -> _]; done.
Qed.

End Keys.

(** X9: the bucket key names its pair of indices: two calls land in the
    same bucket exactly when their input indices agree and their output
    indices agree, and no bucket key is one of the three [meta_] keys that
    share the map. *)
Theorem bucketKey_names_its_indices (i o i' o' : Z) :
  (bucketKey i o = bucketKey i' o' <-> i = i' /\ o = o')
  /\ bucketKey i o ≠ keyVersionRequestTrace
  /\ bucketKey i o ≠ keyPrecisionRequestTrace
  /\ bucketKey i o ≠ keyWriteRequestTraceIntervalInSeconds.
Proof.
  split; [|apply bucketKey_not_meta].
  split; [apply bucketKey_inj|]. by intros [-> ->].
Qed.

(** ** Sequences of trace calls *)

Section Traces.
Variable pf : Platform.
Implicit Types (c : Cache) (model key : string) (trace : gmap string Z).

Lemma wrap64_idemp x d : wrap64 (wrap64 x + d) = wrap64 (x + d).
Proof.
  unfold wrap64.
  replace ((x + 2 ^ 63) `mod` 2 ^ 64 - 2 ^ 63 + d + 2 ^ 63)
    with ((x + 2 ^ 63) `mod` 2 ^ 64 + d) by lia.
  rewrite Zplus_mod_idemp_l. f_equal. f_equal. lia.
Qed.

Lemma metaComplete_traceMeta : metaComplete traceMeta.
Proof. by repeat split. Qed.

Lemma metaComplete_bump i o trace :
  metaComplete trace -> metaComplete (bump (bucketKey i o) trace).
Proof.
  destruct (bucketKey_not_meta i o) as (H1 & H2 & H3).
  intros (M1 & M2 & M3). unfold metaComplete.
  by rewrite !bump_lookup_ne.
Qed.

Lemma traceOrMeta_metaComplete model c :
  tracesCarryMeta c -> metaComplete (traceOrMeta model c).
Proof.
  intros Hc. unfold traceOrMeta. case_decide as Hsz; [apply metaComplete_traceMeta|].
  destruct (requestTrace c !! model) as [trace|] eqn:E; [by eapply Hc|].
  simpl in Hsz. by rewrite map_size_empty in Hsz.
Qed.

Lemma tracesCarryMeta_AddRequestTrace model i o c :
  tracesCarryMeta c -> tracesCarryMeta (AddRequestTrace pf model i o c).
Proof.
  intros Hc m trace. rewrite requestTrace_AddRequestTrace.
  destruct (decide (model = m)) as [->|Hne].
  - rewrite lookup_insert_eq. intros [= <-].
    by apply metaComplete_bump, traceOrMeta_metaComplete.
  - rewrite lookup_insert_ne by done. apply Hc.
Qed.

Lemma recordAll_cons call calls c :
  recordAll pf (call :: calls) c =
  recordAll pf calls (AddRequestTrace pf call.1.1 call.1.2 call.2 c).
Proof. reflexivity. Qed.

Lemma is_Some_requestTrace_AddRequestTrace model i o c m :
  is_Some (requestTrace c !! m) \/ m = model ->
  is_Some (requestTrace (AddRequestTrace pf model i o c) !! m).
Proof.
  intros Hm. rewrite requestTrace_AddRequestTrace.
  destruct (decide (model = m)) as [->|Hne].
  - rewrite lookup_insert_eq. by eexists.
  - rewrite lookup_insert_ne by done. naive_solver.
Qed.

Lemma is_Some_requestTrace_recordAll calls c m :
  is_Some (requestTrace c !! m) -> is_Some (requestTrace (recordAll pf calls c) !! m).
Proof.
  revert c. induction calls as [|call calls IH]; intros c Hm; [done|].
  rewrite recordAll_cons. apply IH, is_Some_requestTrace_AddRequestTrace. by left.
Qed.

Lemma traceOrMeta_after_same model i o c :
  traceOrMeta model (AddRequestTrace pf model i o c) =
  bump (bucketKey (traceIndex pf i) (traceIndex pf o)) (traceOrMeta model c).
Proof.
  unfold traceOrMeta at 1. rewrite requestTrace_AddRequestTrace, lookup_insert_eq. simpl.
  rewrite decide_False; [done|].
  unfold bump. intros Hsz. apply map_size_empty_iff in Hsz.
  by apply insert_non_empty in Hsz.
Qed.

Lemma traceOrMeta_after_other model model' i o c :
  model ≠ model' ->
  traceOrMeta model' (AddRequestTrace pf model i o c) = traceOrMeta model' c.
Proof.
  intros Hne. unfold traceOrMeta.
  by rewrite requestTrace_AddRequestTrace, lookup_insert_ne.
Qed.

Lemma bump_comm k1 k2 trace : bump k1 (bump k2 trace) = bump k2 (bump k1 trace).
Proof.
  unfold bump. destruct (decide (k1 = k2)) as [->|Hne]; [done|].
  rewrite !lookup_insert_ne by done. by apply insert_insert_ne.
Qed.

Lemma countOf_AddRequestTrace model0 i o c model a b :
  countOf (AddRequestTrace pf model0 i o c) model (bucketKey a b) =
  if decide (model0 = model
             /\ bucketKey (traceIndex pf i) (traceIndex pf o) = bucketKey a b)
  then wrap64 (countOf c model (bucketKey a b) + 1)
  else countOf c model (bucketKey a b).
Proof.
  destruct (bucketKey_not_meta a b) as (H1 & H2 & H3).
  unfold countOf. rewrite requestTrace_AddRequestTrace.
  destruct (decide (model0 = model)) as [->|Hne].
  - rewrite lookup_insert_eq. simpl.
    destruct (decide (bucketKey (traceIndex pf i) (traceIndex pf o) = bucketKey a b)) as [Hk|Hk].
    + rewrite decide_True by done. rewrite Hk, bump_lookup. simpl.
      rewrite traceOrMeta_bucket by done.
      by destruct (requestTrace c !! model).
    + rewrite decide_False by tauto. rewrite bump_lookup_ne by done.
      rewrite traceOrMeta_bucket by done.
      by destruct (requestTrace c !! model).
  - rewrite lookup_insert_ne by done. rewrite decide_False by tauto. done.
Qed.

Lemma hits_cons model key call calls :
  hits pf model key (call :: calls) =
  (if decide (call.1.1 = model
              /\ bucketKey (traceIndex pf call.1.2) (traceIndex pf call.2) = key)
   then 1 else 0) + hits pf model key calls.
Proof.
  unfold hits. rewrite filter_cons. case_decide; simpl; lia.
Qed.

Lemma hits_nonneg model key calls : 0 <= hits pf model key calls.
Proof. unfold hits. lia. Qed.

Lemma countOf_recordAll calls c model a b :
  countOf (recordAll pf calls c) model (bucketKey a b) =
  if decide (hits pf model (bucketKey a b) calls = 0)
  then countOf c model (bucketKey a b)
  else wrap64 (countOf c model (bucketKey a b) + hits pf model (bucketKey a b) calls).
Proof.
  revert c. induction calls as [|call calls IH]; intros c; [done|].
  rewrite recordAll_cons, IH, countOf_AddRequestTrace, hits_cons.
  pose proof (hits_nonneg model (bucketKey a b) calls).
  destruct (decide (hits pf model (bucketKey a b) calls = 0)) as [Hz|Hz];
    repeat case_decide; try lia; try done.
  - f_equal. lia.
  - rewrite wrap64_idemp. f_equal. lia.
Qed.

End Traces.

(** X10: however many traces are recorded, for whatever models and token
    counts, every trace the cache holds carries the three [meta_] entries
    (interval 10, precision 10, version 2), and every model that was named
    has a trace. *)
Theorem recorded_traces_carry_meta (pf : Platform) (calls : list (string * Z * Z)) (c : Cache) :
  tracesCarryMeta c ->
  let c' := recordAll pf calls c in
  tracesCarryMeta c'
  /\ forall call, call ∈ calls -> is_Some (requestTrace c' !! call.1.1).
Proof.
  intros Hc. cbv zeta. revert c Hc.
  induction calls as [|call calls IH]; intros c Hc.
  - split; [done|]. intros call Hin. by apply elem_of_nil in Hin.
  - rewrite recordAll_cons.
    destruct (IH _ (tracesCarryMeta_AddRequestTrace pf call.1.1 call.1.2 call.2 c Hc))
      as [Hmeta Hin].
    split; [done|]. intros call' Hcall. apply elem_of_cons in Hcall as [->|Hcall].
    + apply is_Some_requestTrace_recordAll, is_Some_requestTrace_AddRequestTrace.
      by right.
    + by apply Hin.
Qed.

Lemma recorded_traces_carry_meta_witness :
  tracesCarryMeta (NewCache None None)
  /\ tracesCarryMeta (recordAll pf0 [("llama-7b", 0, 4); ("qwen", -3, 8192)] (NewCache None None))
  /\ is_Some (requestTrace
                (recordAll pf0 [("llama-7b", 0, 4); ("qwen", -3, 8192)] (NewCache None None))
              !! "qwen").
Proof.
  assert (H0 : tracesCarryMeta (NewCache None None)).
  { intros m trace. simpl. by rewrite lookup_empty. }
  pose proof (recorded_traces_carry_meta pf0 [("llama-7b", 0, 4); ("qwen", -3, 8192)]
                (NewCache None None) H0) as H.
  cbv zeta in H. destruct H as [H1 H2].
  split; [exact H0|]. split; [exact H1|].
  apply (H2 ("qwen", -3, 8192)). set_solver.
Defined.

(** X11: two trace calls give the same cache in either order, for the same
    or different models and buckets. *)
Theorem AddRequestTrace_commutes (pf : Platform) (model1 model2 : string) (i1 o1 i2 o2 : Z) (c : Cache) :
  AddRequestTrace pf model1 i1 o1 (AddRequestTrace pf model2 i2 o2 c)
  = AddRequestTrace pf model2 i2 o2 (AddRequestTrace pf model1 i1 o1 c).
Proof.
  unfold AddRequestTrace at 1 3.
  destruct (decide (model1 = model2)) as [->|Hne].
  - rewrite !traceOrMeta_after_same, !requestTrace_AddRequestTrace.
    unfold set_requestTrace. simpl. f_equal.
    rewrite !insert_insert_eq. f_equal. apply bump_comm.
  - rewrite (traceOrMeta_after_other pf model2 model1) by done.
    rewrite (traceOrMeta_after_other pf model1 model2) by done.
    rewrite !requestTrace_AddRequestTrace. unfold set_requestTrace. simpl. f_equal.
    by apply insert_insert_ne.
Qed.

(** X12: after any sequence of trace calls, the count under a bucket of a
    model has grown by the number of calls that named that model and mapped
    to that pair of indices (as a Go [int], so modulo 2^64); counting from a
    bucket at zero, with fewer than 2^63 calls, it is exactly that number. *)
Theorem recorded_counts (pf : Platform) (calls : list (string * Z * Z)) (c : Cache)
    (model : string) (a b : Z) :
  let key := bucketKey a b in
  let c' := recordAll pf calls c in
  countOf c' model key =
    (if decide (hits pf model key calls = 0) then countOf c model key
     else wrap64 (countOf c model key + hits pf model key calls))
  /\ (countOf c model key = 0 -> hits pf model key calls < 2 ^ 63 ->
      countOf c' model key = hits pf model key calls).
Proof.
  cbv zeta. split; [apply countOf_recordAll|].
  intros H0 Hlt. rewrite countOf_recordAll, H0.
  pose proof (hits_nonneg pf model (bucketKey a b) calls).
  case_decide as Hd; [lia|]. rewrite wrap64_in_range; lia.
Qed.

Lemma recorded_counts_witness :
  let calls := [("llama-7b", 1, 1); ("qwen", 1, 1); ("llama-7b", 1, 1); ("llama-7b", 2, 1)] in
  countOf (NewCache None None) "llama-7b" (bucketKey 0 0) = 0
  /\ hits pf0 "llama-7b" (bucketKey 0 0) calls < 2 ^ 63
  /\ hits pf0 "llama-7b" (bucketKey 0 0) calls = 2
  /\ countOf (recordAll pf0 calls (NewCache None None)) "llama-7b" (bucketKey 0 0) = 2.
Proof.
  cbv zeta.
  set (calls := [("llama-7b", 1, 1); ("qwen", 1, 1); ("llama-7b", 1, 1); ("llama-7b", 2, 1)]).
  assert (H0 : countOf (NewCache None None) "llama-7b" (bucketKey 0 0) = 0) by reflexivity.
  assert (Hh : hits pf0 "llama-7b" (bucketKey 0 0) calls = 2) by (by vm_compute).
  assert (Hlt : hits pf0 "llama-7b" (bucketKey 0 0) calls < 2 ^ 63) by (rewrite Hh; lia).
  pose proof (recorded_counts pf0 calls (NewCache None None) "llama-7b" 0 0) as H.
  cbv zeta in H. destruct H as [_ H].
  split; [exact H0|]. split; [exact Hlt|]. split; [exact Hh|].
  rewrite <- Hh. exact (H H0 Hlt).
Defined.

(** Two calls whose counts differ but convert to one float64 are counted in
    one bucket, on every platform. *)
Lemma large_counts_share_a_bucket (pf : Platform) (model : string) :
  let calls := [(model, 12304196782584384, 1); (model, 12304196782584385, 1)] in
  countOf (recordAll pf calls (NewCache None None)) model
          (bucketKey (traceIndex pf 12304196782584384) 0) = 2.
Proof.
  cbv zeta. rewrite countOf_recordAll.
  set (key := bucketKey (traceIndex pf 12304196782584384) 0).
  assert (Hh : hits pf model key
                 [(model, 12304196782584384, 1); (model, 12304196782584385, 1)] = 2).
  { rewrite !hits_cons. cbn [fst snd].
    destruct (traceIndex_large_counts_share pf) as [_ <-].
    rewrite traceIndex_one. fold key.
    rewrite !(decide_True (P := model = model /\ key = key)) by done.
    reflexivity. }
  clearbody key. rewrite Hh. rewrite decide_False by lia.
  unfold countOf. simpl. rewrite lookup_empty. simpl.
  apply wrap64_in_range. lia.
Qed.

(** ** What a flush sends *)

Section FlushFacts.
Variable jsonMarshal : gmap string Z -> option string.
Variable redisSetFails : string -> string -> bool.

Lemma length_append (s t : string) :
  String.length (s +:+ t) = (String.length s + String.length t)%nat.
Proof. induction s as [|a s IH]; simpl; [done|]. by rewrite IH. Qed.

Lemma append_cancel_r (s1 s2 t : string) : s1 +:+ t = s2 +:+ t -> s1 = s2.
Proof.
  revert s2. induction s1 as [|a s1 IH]; intros [|b s2] Heq.
  - done.
  - assert (Hlen : String.length t = S (String.length s2 + String.length t)).
    { rewrite <- length_append. exact (f_equal String.length Heq). }
    lia.
  - assert (Hlen : S (String.length s1 + String.length t) = String.length t).
    { rewrite <- length_append. exact (f_equal String.length Heq). }
    lia.
  - simpl in Heq. injection Heq as -> Heq. f_equal. by apply IH.
Qed.

Lemma traceKey_inj (model model' : string) (roundT : Z) :
  traceKey model roundT = traceKey model' roundT -> model = model'.
Proof.
  unfold traceKey. intros Heq. apply (inj (String.app "aibrix:")) in Heq.
  by apply append_cancel_r in Heq.
Qed.

Lemma writeTraces_with_client (cl : RedisClient) (roundT : Z)
    (entries : list (string * gmap string Z)) :
  writeTraces jsonMarshal redisSetFails (Some cl) roundT entries
  = (omap (setFor jsonMarshal redisSetFails roundT) entries, Returned).
Proof.
  induction entries as [|[model trace] entries IH]; [done|].
  simpl. unfold setFor at 1. simpl.
  destruct (jsonMarshal trace) as [value|]; simpl; [|done].
  by rewrite IH.
Qed.

Lemma setFor_key roundT entry s :
  setFor jsonMarshal redisSetFails roundT entry = Some s -> setKey s = traceKey entry.1 roundT.
Proof.
  unfold setFor. destruct (jsonMarshal entry.2); simpl; [|done]. by intros [= <-].
Qed.

Lemma NoDup_keys_omap_setFor roundT (entries : list (string * gmap string Z)) :
  NoDup entries.*1 ->
  NoDup (setKey <$> omap (setFor jsonMarshal redisSetFails roundT) entries).
Proof.
  induction entries as [|entry entries IH]; intros Hnd; [constructor|].
  rewrite fmap_cons in Hnd. apply NoDup_cons in Hnd as [Hnotin Hnd].
  simpl. destruct (setFor jsonMarshal redisSetFails roundT entry) as [s|] eqn:Hs;
    [|by apply IH].
  rewrite fmap_cons. apply NoDup_cons. split; [|by apply IH].
  intros Hin. apply Hnotin.
  apply list_elem_of_fmap in Hin as (s' & Hkey & Hin).
  apply list_elem_of_omap in Hin as (entry' & Hin & Hs').
  apply setFor_key in Hs. apply setFor_key in Hs'.
  rewrite Hs, Hs' in Hkey. apply traceKey_inj in Hkey.
  rewrite Hkey. apply list_elem_of_fmap. by exists entry'.
Qed.

End FlushFacts.

Lemma flush_sets (jsonMarshal : gmap string Z -> option string)
    (redisSetFails : string -> string -> bool) (roundT : Z) (c : Cache) (cl : RedisClient) :
  redisClient c = Some cl ->
  let r := writeRequestTraceToStorage jsonMarshal redisSetFails roundT c in
  r.2 = Returned
  /\ (forall s, s ∈ r.1.2 ->
        exists model, is_Some (requestTrace c !! model)
                      /\ setKey s = traceKey model roundT)
  /\ requestTrace r.1.1 = ∅.
Proof.
  intros Hcl. cbv zeta. unfold writeRequestTraceToStorage.
  rewrite Hcl, writeTraces_with_client. simpl. split; [done|]. split; [|done].
  intros s Hs. apply list_elem_of_omap in Hs as ([model trace] & Hin & Hs).
  apply elem_of_map_to_list in Hin. apply setFor_key in Hs.
  exists model. split; [by eexists|done].
Qed.

(** X13: with a store client in place, a flush never unwinds and issues
    exactly one write for every model whose trace serialises -- under the
    key [aibrix:<model>_request_trace_<roundT>], with the serialised value
    and a 600-second expiry -- and none for the others; no two writes of one
    flush share a key, and a write the store rejects does not stop the
    later ones. *)
Theorem flush_writes_each_serialised_trace
    (jsonMarshal : gmap string Z -> option string) (redisSetFails : string -> string -> bool)
    (roundT : Z) (c : Cache) (cl : RedisClient) :
  redisClient c = Some cl ->
  let r := writeRequestTraceToStorage jsonMarshal redisSetFails roundT c in
  r.2 = Returned
  /\ (forall s, s ∈ r.1.2 <->
        exists model trace value,
          requestTrace c !! model = Some trace
          /\ jsonMarshal trace = Some value
          /\ s = mkRedisSet (traceKey model roundT) value 600
                            (redisSetFails (traceKey model roundT) value))
  /\ NoDup (setKey <$> r.1.2).
Proof.
  intros Hcl. cbv zeta. unfold writeRequestTraceToStorage.
  rewrite Hcl, writeTraces_with_client. simpl. split; [done|]. split.
  - intros s. rewrite list_elem_of_omap. split.
    + intros ([model trace] & Hin & Hs). apply elem_of_map_to_list in Hin.
      unfold setFor in Hs. simpl in Hs.
      destruct (jsonMarshal trace) as [value|] eqn:Hv; simpl in Hs; [|done].
      injection Hs as <-. by exists model, trace, value.
    + intros (model & trace & value & Hin & Hv & ->).
      exists (model, trace). split; [by apply elem_of_map_to_list|].
      unfold setFor. simpl. by rewrite Hv.
  - apply NoDup_keys_omap_setFor, NoDup_fst_map_to_list.
Qed.

Lemma flush_writes_each_serialised_trace_witness :
  let c := recordAll pf0 [("llama-7b", 1, 1); ("qwen", 4, 2)] (NewCache (Some redis0) None) in
  redisClient c = Some redis0
  /\ (writeRequestTraceToStorage marshalAlways storeDown 1700000000 c).2 = Returned
  /\ mkRedisSet "aibrix:qwen_request_trace_1700000000" "{}" 600 true
       ∈ (writeRequestTraceToStorage marshalAlways storeDown 1700000000 c).1.2
  /\ NoDup (setKey <$> (writeRequestTraceToStorage marshalAlways storeDown 1700000000 c).1.2).
Proof.
  cbv zeta.
  set (c := recordAll pf0 [("llama-7b", 1, 1); ("qwen", 4, 2)] (NewCache (Some redis0) None)).
  assert (Hcl : redisClient c = Some redis0) by reflexivity.
  pose proof (flush_writes_each_serialised_trace marshalAlways storeDown 1700000000 c
                redis0 Hcl) as H.
  cbv zeta in H. destruct H as (H1 & H2 & H3).
  split; [exact Hcl|]. split; [exact H1|]. split; [|exact H3].
  apply H2.
  assert (E : is_Some (requestTrace c !! "qwen")) by by_evaluation.
  destruct E as [trace E].
  exists "qwen", trace, "{}". split; [exact E|]. split; reflexivity.
Defined.

Lemma interval_start now :
  0 <= now ->
  10 * (now / 10) <= now < 10 * (now / 10) + 10
  /\ now - Z.rem now writeRequestTraceIntervalInSeconds = 10 * (now / 10).
Proof.
  intros Hnow. unfold writeRequestTraceIntervalInSeconds.
  rewrite Z.rem_mod_nonneg by lia.
  pose proof (Z.div_mod now 10 ltac:(lia)).
  pose proof (Z.mod_pos_bound now 10 ltac:(lia)). lia.
Qed.

(** X14: a tick of the trace ticker never unwinds: the nil dereference of
    [writeRequestTraceToStorage] cannot be reached from it. Without a store
    client a tick changes nothing, so the traces are never cleared; with one,
    [requestTrace] is empty after every tick. When it flushes at a time
    [now >= 0], every key carries the start of the 10-second interval that
    [now] falls in. *)
Theorem traceTick_safe_and_aligned
    (jsonMarshal : gmap string Z -> option string) (redisSetFails : string -> string -> bool)
    (now : Z) (c : Cache) :
  let r := traceTick jsonMarshal redisSetFails now c in
  r.2 = Returned
  /\ requestTrace r.1.1 =
     match redisClient c with
     | Some _ => ∅
     | None => requestTrace c
     end
  /\ (redisClient c = None -> r = (c, [], Returned))
  /\ (0 <= now ->
      10 * (now / 10) <= now < 10 * (now / 10) + 10
      /\ forall s, s ∈ r.1.2 ->
           exists model, is_Some (requestTrace c !! model)
                         /\ setKey s = traceKey model (10 * (now / 10))).
Proof.
  cbv zeta. unfold traceTick.
  destruct (redisClient c) as [cl|] eqn:Hcl.
  - case_decide as Hsz.
    + apply map_size_empty_iff in Hsz. simpl. rewrite Hsz.
      split; [done|]. split; [done|]. split; [done|]. intros Hnow.
      split; [apply (interval_start now Hnow)|]. intros s Hs. by apply elem_of_nil in Hs.
    + pose proof (flush_sets jsonMarshal redisSetFails
                    (now - Z.rem now writeRequestTraceIntervalInSeconds) c cl Hcl) as Hf.
      destruct Hf as (Hout & Hsets & Hrt).
      split; [done|]. split; [done|]. split; [done|]. intros Hnow.
      split; [apply (interval_start now Hnow)|].
      intros s Hs. apply Hsets in Hs as (model & Hm & Hkey).
      exists model. split; [done|]. rewrite Hkey. f_equal.
      apply (interval_start now Hnow).
  - simpl. split; [done|]. split; [done|]. split; [done|]. intros Hnow.
    split; [apply (interval_start now Hnow)|]. intros s Hs. by apply elem_of_nil in Hs.
Qed.

Lemma traceTick_safe_and_aligned_witness :
  let pendingNoStore := AddRequestTrace pf0 "llama-7b" 1 1 (NewCache None None) in
  let pendingStore := AddRequestTrace pf0 "llama-7b" 1 1 (NewCache (Some redis0) None) in
  0 <= 1700000007
  /\ redisClient pendingNoStore = None
  /\ traceTick marshalAlways storeDown 1700000007 pendingNoStore
     = (pendingNoStore, [], Returned)
  /\ requestTrace (traceTick marshalAlways storeDown 1700000007 pendingStore).1.1 = ∅
  /\ 10 * (1700000007 / 10) <= 1700000007 < 10 * (1700000007 / 10) + 10.
Proof.
  cbv zeta.
  assert (Hnow : 0 <= 1700000007) by lia.
  assert (Hnil : redisClient (AddRequestTrace pf0 "llama-7b" 1 1 (NewCache None None)) = None)
    by reflexivity.
  pose proof (traceTick_safe_and_aligned marshalAlways storeDown 1700000007
                (AddRequestTrace pf0 "llama-7b" 1 1 (NewCache None None))) as H.
  pose proof (traceTick_safe_and_aligned marshalAlways storeDown 1700000007
                (AddRequestTrace pf0 "llama-7b" 1 1 (NewCache (Some redis0) None))) as H'.
  cbv zeta in H, H'.
  destruct H as (_ & _ & Hsame & _). destruct H' as (_ & Hrt & _ & Halign).
  split; [exact Hnow|]. split; [exact Hnil|]. split; [exact (Hsame Hnil)|].
  split; [exact Hrt|]. exact (proj1 (Halign Hnow)).
Defined.

(** ** What the event handlers leave alone *)

Section Frame.
Implicit Types (c : Cache) (p m : string).

Lemma sameBesidesIndex_refl c : sameBesidesIndex c c.
Proof. by repeat split. Qed.

Lemma sameBesidesIndex_trans c1 c2 c3 :
  sameBesidesIndex c1 c2 -> sameBesidesIndex c2 c3 -> sameBesidesIndex c1 c3.
Proof.
  intros (A1 & A2 & A3 & A4 & A5 & A6 & A7) (B1 & B2 & B3 & B4 & B5 & B6 & B7).
  repeat split; congruence.
Qed.

Lemma sameBesidesIndex_add p m c : sameBesidesIndex c (addPodAndModelMapping p m c).
Proof.
  destruct (Pods c !! p) as [pod|] eqn:Hp.
  - rewrite (addPodAndModelMapping_known _ _ _ _ Hp). by repeat split.
  - rewrite addPodAndModelMapping_unknown by done. apply sameBesidesIndex_refl.
Qed.

Lemma sameBesidesIndex_delete p m c : sameBesidesIndex c (deletePodAndModelMapping p m c).
Proof. rewrite deletePodAndModelMapping_alter. by repeat split. Qed.

Lemma sameBesidesIndex_set_Pods v c : sameBesidesIndex c (set_Pods v c).
Proof. by repeat split. Qed.

Lemma sameBesidesIndex_foldl {A} (step : Cache -> A -> Cache) (l : list A) c :
  (forall c x, sameBesidesIndex c (step c x)) -> sameBesidesIndex c (foldl step c l).
Proof.
  intros Hstep. revert c. induction l as [|x l IH]; intros c.
  - apply sameBesidesIndex_refl.
  - simpl. eapply sameBesidesIndex_trans; [apply Hstep|apply IH].
Qed.

Lemma sameBesidesIndex_dispatch c e : sameBesidesIndex c (dispatch c e).
Proof.
  destruct e as [pod|oldPod newPod|pod|model|oldModel newModel|model];
    unfold dispatch, addModelAdapter, updateModelAdapter.
  - unfold addPod. destruct (v1.Labels pod !! modelIdentifier);
      [|apply sameBesidesIndex_refl].
    eapply sameBesidesIndex_trans;
      [apply sameBesidesIndex_set_Pods|apply sameBesidesIndex_add].
  - unfold updatePod.
    destruct (v1.Labels oldPod !! modelIdentifier) as [om|],
             (v1.Labels newPod !! modelIdentifier) as [nm|];
      repeat first
        [ apply sameBesidesIndex_refl
        | eapply sameBesidesIndex_trans;
            [|first [apply sameBesidesIndex_add | apply sameBesidesIndex_delete]]
        | eapply sameBesidesIndex_trans; [|apply sameBesidesIndex_set_Pods] ].
  - unfold deletePod. destruct (v1.Labels pod !! modelIdentifier);
      [|apply sameBesidesIndex_refl].
    cbv zeta. destruct (PodToModelMapping c !! v1.Name pod) as [models|];
      [|by repeat split].
    eapply sameBesidesIndex_trans.
    + apply (sameBesidesIndex_foldl
               (fun acc modelName => deletePodAndModelMapping (v1.Name pod) modelName acc)
               (elements models)).
      intros c0 x. apply sameBesidesIndex_delete.
    + by repeat split.
  - apply sameBesidesIndex_foldl. intros c0 x. apply sameBesidesIndex_add.
  - eapply sameBesidesIndex_trans.
    + apply (sameBesidesIndex_foldl
               (fun acc pod => deletePodAndModelMapping pod (modelv1alpha1.Name oldModel) acc)).
      intros c0 x. apply sameBesidesIndex_delete.
    + apply sameBesidesIndex_foldl. intros c0 x. apply sameBesidesIndex_add.
  - unfold deleteModelAdapter.
    eapply sameBesidesIndex_trans.
    + apply (sameBesidesIndex_foldl
               (fun acc pod => deletePodAndModelMapping pod (modelv1alpha1.Name model) acc)
               (modelv1alpha1.Instances model)).
      intros c0 x. apply sameBesidesIndex_delete.
    + by repeat split.
Qed.

End Frame.

(** X15: pod and model-adapter events touch the registry, the two mapping
    tables and (on a pod delete) the pod metrics, and nothing else: after any
    event sequence the recorded traces, the subscribers, the model metrics,
    the two clients and the [initialized] flag are as before, so [GetCache]
    keeps succeeding on a constructed cache. *)
Theorem events_leave_traces_and_clients (events : list Event) (c : Cache) :
  let c' := run events c in
  requestTrace c' = requestTrace c
  /\ subscribers c' = subscribers c
  /\ metrics c' = metrics c
  /\ ModelMetrics c' = ModelMetrics c
  /\ redisClient c' = redisClient c
  /\ prometheusApi c' = prometheusApi c
  /\ initialized c' = initialized c
  /\ (initialized c = true -> GetCache c' = inl c').
Proof.
  cbv zeta.
  destruct (sameBesidesIndex_foldl dispatch events c sameBesidesIndex_dispatch)
    as (H1 & H2 & H3 & H4 & H5 & H6 & H7).
  fold (run events c) in *.
  repeat split; try done.
  intros Hi. unfold GetCache. by rewrite H3, Hi.
Qed.

Lemma events_leave_traces_and_clients_witness :
  let c := AddRequestTrace pf0 "llama-7b" 1 1 (NewCache (Some redis0) None) in
  let c' := run [PodAdded p1; ModelAdapterAdded (loraOn ["p1"]); PodDeleted p1] c in
  initialized c = true
  /\ requestTrace c' = requestTrace c
  /\ GetCache c' = inl c'.
Proof.
  cbv zeta.
  pose proof (events_leave_traces_and_clients
                [PodAdded p1; ModelAdapterAdded (loraOn ["p1"]); PodDeleted p1]
                (AddRequestTrace pf0 "llama-7b" 1 1 (NewCache (Some redis0) None))) as H.
  cbv zeta in H. destruct H as (H1 & _ & _ & _ & _ & _ & _ & H8).
  split; [reflexivity|]. split; [exact H1|]. exact (H8 eq_refl).
Defined.

(** ** Subscribers that ask for nothing *)

(** X17: on a constructed cache, whatever events it has served, a
    subscriber that asks for no metric is added without a panic: it is
    appended to [subscribers] and nothing else changes. *)
Theorem AddSubscriber_without_metrics (redis : option RedisClient)
    (prom : option PrometheusAPI) (events : list Event)
    (subscriber : metrics.MetricSubscriber) :
  metrics.SubscribedMetrics subscriber = [] ->
  let c := run events (NewCache redis prom) in
  AddSubscriber subscriber c = Ok (set_subscribers [subscriber] c).
Proof.
  intros Hnone. cbv zeta. unfold AddSubscriber, aggregateMetrics.
  destruct (sameBesidesIndex_foldl dispatch events (NewCache redis prom)
              sameBesidesIndex_dispatch) as (_ & _ & _ & Hsubs & Hmet & _).
  fold (run events (NewCache redis prom)) in *.
  rewrite forEach_subscribers_nil_map by exact Hmet.
  change (subscribers (set_subscribers ?v ?c)) with v.
  rewrite Hsubs. simpl. rewrite Hnone. done.
Qed.

Lemma AddSubscriber_without_metrics_witness :
  metrics.SubscribedMetrics (metrics.mkSubscriber []) = []
  /\ AddSubscriber (metrics.mkSubscriber []) (run [PodAdded p1] (NewCache None None))
     = Ok (set_subscribers [metrics.mkSubscriber []] (run [PodAdded p1] (NewCache None None))).
Proof.
  split; [reflexivity|].
  exact (AddSubscriber_without_metrics None None [PodAdded p1] (metrics.mkSubscriber [])
           eq_refl).
Defined.

(** ** Metrics refresh *)

Section RefreshFacts.
Variable names : MetricNames.
Variable httpGet : string -> option string.
Variable ParseMetricFromBody : string -> string -> option Z.
Variable ParseHistogramFromBody : string -> string -> option (Z * Z * list (string * Z)).
Variable promQL : string -> option string.
Variable BuildQuery : string -> gmap string string -> string.
Variable promQuery : string -> option string.

Implicit Types (c : Cache) (pod : v1.Pod) (n k : string)
  (pm : gmap string (gmap string metrics.MetricValue)).

Local Abbreviation scrape := (scrapePod names httpGet ParseMetricFromBody
                                ParseHistogramFromBody promQL BuildQuery promQuery).
Local Abbreviation mOf pm n k := (pm !! n ≫= (fun ms => ms !! k)).

Lemma setPodMetric_other n k v pm n' :
  n' ≠ n -> setPodMetric n k v pm !! n' = pm !! n'.
Proof. intros Hne. unfold setPodMetric. by rewrite lookup_insert_ne. Qed.

Lemma mOf_setPodMetric n k v pm k' :
  mOf (setPodMetric n k v pm) n k' = if decide (k' = k) then Some v else mOf pm n k'.
Proof.
  unfold setPodMetric. rewrite lookup_insert_eq. simpl.
  case_decide as Hd.
  - subst. apply lookup_insert_eq.
  - rewrite lookup_insert_ne by done. by destruct (pm !! n).
Qed.

(** A loop that stores, for each name, the value [g] finds for it. *)
Lemma foldl_put n (g : string -> option metrics.MetricValue)
    (step : gmap string (gmap string metrics.MetricValue) -> string ->
            gmap string (gmap string metrics.MetricValue)) (l : list string) pm :
  (forall pm k, step pm k = match g k with
                            | None => pm
                            | Some v => setPodMetric n k v pm
                            end) ->
  (forall n', n' ≠ n -> foldl step pm l !! n' = pm !! n')
  /\ (forall k, mOf (foldl step pm l) n k =
                if decide (k ∈ l /\ is_Some (g k)) then g k else mOf pm n k).
Proof.
  intros Hstep. revert pm. induction l as [|x l IH]; intros pm.
  - split; [done|]. intros k. cbn [foldl]. rewrite decide_False; [done|].
    intros [Hin _]. by apply elem_of_nil in Hin.
  - cbn [foldl]. destruct (IH (step pm x)) as [IH1 IH2]. split.
    + intros n' Hne. rewrite IH1 by done. rewrite Hstep.
      destruct (g x); [by apply setPodMetric_other|done].
    + intros k. rewrite IH2, Hstep.
      destruct (decide (k ∈ l /\ is_Some (g k))) as [[Hin Hg]|Hrest].
      * rewrite decide_True; [done|]. split; [by apply elem_of_cons; right|done].
      * destruct (g x) as [v|] eqn:Hgx.
        -- rewrite mOf_setPodMetric. destruct (decide (k = x)) as [->|Hne].
           ++ rewrite decide_True; [done|].
              split; [by apply elem_of_cons; left|by rewrite Hgx].
           ++ rewrite decide_False; [done|]. intros [Hin Hg].
              apply elem_of_cons in Hin as [?|Hin]; [done|]. by apply Hrest.
        -- rewrite decide_False; [done|]. intros [Hin Hg].
           apply elem_of_cons in Hin as [->|Hin]; [|by apply Hrest].
           rewrite Hgx in Hg. by destruct Hg.
Qed.

Local Abbreviation counterOf := (counterValue ParseMetricFromBody).
Local Abbreviation histogramOf := (histogramValue ParseHistogramFromBody).
Local Abbreviation queriedOf := (queriedValue promQL BuildQuery promQuery).

Lemma parseCounterGauge_put n body pm k :
  parseCounterGauge ParseMetricFromBody n body pm k =
  match counterOf body k with
  | None => pm
  | Some v => setPodMetric n k v pm
  end.
Proof.
  unfold parseCounterGauge, counterValue. by destruct (ParseMetricFromBody body k).
Qed.

Lemma parseHistogram_put n body pm k :
  parseHistogram ParseHistogramFromBody n body pm k =
  match histogramOf body k with
  | None => pm
  | Some v => setPodMetric n k v pm
  end.
Proof.
  unfold parseHistogram, histogramValue.
  by destruct (ParseHistogramFromBody body k) as [[[sum count] buckets]|].
Qed.

Lemma queryPodMetric_put pod pm k :
  queryPodMetric promQL BuildQuery promQuery pod pm k =
  match queriedOf pod k with
  | None => pm
  | Some v => setPodMetric (v1.Name pod) k v pm
  end.
Proof.
  unfold queryPodMetric, queriedValue. destruct (promQL k) as [q|]; simpl; [|done].
  by destruct (promQuery (BuildQuery q (podQueryLabels pod))).
Qed.

Lemma ensured_entry n pm :
  let pm0 := if decide (size (default ∅ (pm !! n)) = 0%nat)
             then <[n := ∅]> pm else pm in
  (forall n', n' ≠ n -> pm0 !! n' = pm !! n')
  /\ (forall k, mOf pm0 n k = mOf pm n k).
Proof.
  cbv zeta. case_decide as Hsz; [|done]. split.
  - intros n' Hne. by rewrite lookup_insert_ne.
  - intros k. rewrite lookup_insert_eq. simpl. rewrite lookup_empty.
    destruct (pm !! n) as [ms|]; simpl in *; [|done].
    apply map_size_empty_iff in Hsz. by rewrite Hsz, lookup_empty.
Qed.

Lemma set_PodMetrics_id c : set_PodMetrics (PodMetrics c) c = c.
Proof. by destruct c. Qed.

(** One pod's turn: only [PodMetrics] changes, only under the pod's name,
    and there each name holds what the last pass that found a value stored,
    or what it held before. *)
Lemma scrapePod_effect c pod :
  scrape c pod = set_PodMetrics (PodMetrics (scrape c pod)) c
  /\ (forall n', n' ≠ v1.Name pod ->
        PodMetrics (scrape c pod) !! n' = PodMetrics c !! n')
  /\ (forall k,
        metricOf (scrape c pod) (v1.Name pod) k =
        if decide (v1.PodIP pod = "") then metricOf c (v1.Name pod) k
        else
          match httpGet (metricsURL pod) with
          | None => metricOf c (v1.Name pod) k
          | Some body =>
            let r1 :=
              if decide (k ∈ counterGaugeMetricNames names /\ is_Some (counterOf body k))
              then counterOf body k else metricOf c (v1.Name pod) k in
            let r2 :=
              if decide (k ∈ histogramMetricNames names /\ is_Some (histogramOf body k))
              then histogramOf body k else r1 in
            match prometheusApi c with
            | None => r2
            | Some _ =>
              if decide (k ∈ prometheusMetricNames names /\ is_Some (queriedOf pod k))
              then queriedOf pod k else r2
            end
          end).
Proof.
  unfold scrapePod, metricOf.
  destruct (decide (v1.PodIP pod = "")) as [Hip|Hip].
  { by rewrite set_PodMetrics_id. }
  destruct (ensured_entry (v1.Name pod) (PodMetrics c)) as [E1 E2]. cbv zeta in E1, E2.
  set (pm0 := if decide (size (default ∅ (PodMetrics c !! v1.Name pod)) = 0%nat)
              then <[v1.Name pod := ∅]> (PodMetrics c) else PodMetrics c) in *.
  destruct (httpGet (metricsURL pod)) as [body|].
  2:{ simpl. split; [done|]. split; [exact E1|exact E2]. }
  destruct (foldl_put (v1.Name pod) (counterOf body)
              (parseCounterGauge ParseMetricFromBody (v1.Name pod) body)
              (counterGaugeMetricNames names) pm0
              (parseCounterGauge_put (v1.Name pod) body)) as [A1 A2].
  set (pm1 := foldl (parseCounterGauge ParseMetricFromBody (v1.Name pod) body) pm0
                    (counterGaugeMetricNames names)) in *.
  destruct (foldl_put (v1.Name pod) (histogramOf body)
              (parseHistogram ParseHistogramFromBody (v1.Name pod) body)
              (histogramMetricNames names) pm1
              (parseHistogram_put (v1.Name pod) body)) as [B1 B2].
  set (pm2 := foldl (parseHistogram ParseHistogramFromBody (v1.Name pod) body) pm1
                    (histogramMetricNames names)) in *.
  destruct (prometheusApi c) as [api|]; simpl.
  - destruct (foldl_put (v1.Name pod) (queriedOf pod)
                (queryPodMetric promQL BuildQuery promQuery pod)
                (prometheusMetricNames names) pm2
                (queryPodMetric_put pod)) as [C1 C2].
    split; [done|]. split.
    + intros n' Hne. by rewrite C1, B1, A1, E1.
    + intros k. by rewrite C2, B2, A2, E2.
  - split; [done|]. split.
    + intros n' Hne. by rewrite B1, A1, E1.
    + intros k. by rewrite B2, A2, E2.
Qed.

Lemma scrapePod_prometheusApi c pod : prometheusApi (scrape c pod) = prometheusApi c.
Proof. destruct (scrapePod_effect c pod) as [-> _]. done. Qed.

Lemma scrapePod_elsewhere c pod n k :
  n ≠ v1.Name pod -> metricOf (scrape c pod) n k = metricOf c n k.
Proof.
  intros Hne. destruct (scrapePod_effect c pod) as (_ & H & _).
  unfold metricOf. by rewrite H.
Qed.

Lemma scrapePod_keeps c pod n k :
  is_Some (metricOf c n k) -> is_Some (metricOf (scrape c pod) n k).
Proof.
  intros Hk. destruct (decide (n = v1.Name pod)) as [->|Hne].
  - destruct (scrapePod_effect c pod) as (_ & _ & H). rewrite H.
    repeat first [ done | case_decide | case_match ]; naive_solver.
  - by rewrite scrapePod_elsewhere.
Qed.

Lemma scrapePod_failed c pod k :
  v1.PodIP pod = "" \/ httpGet (metricsURL pod) = None ->
  metricOf (scrape c pod) (v1.Name pod) k = metricOf c (v1.Name pod) k.
Proof.
  intros Hfail. destruct (scrapePod_effect c pod) as (_ & _ & H). rewrite H.
  case_decide; [done|]. destruct Hfail as [?|Hget]; [done|]. by rewrite Hget.
Qed.

Lemma scrapePod_counter c pod body k v :
  v1.PodIP pod ≠ "" ->
  httpGet (metricsURL pod) = Some body ->
  k ∈ counterGaugeMetricNames names ->
  ParseMetricFromBody body k = Some v ->
  k ∉ histogramMetricNames names ->
  k ∉ prometheusMetricNames names ->
  metricOf (scrape c pod) (v1.Name pod) k = Some (metrics.SimpleMetricValue v).
Proof.
  intros Hip Hget Hk Hv Hh Hp. destruct (scrapePod_effect c pod) as (_ & _ & H).
  rewrite H, decide_False, Hget by done. cbv zeta.
  assert (Hc : counterOf body k = Some (metrics.SimpleMetricValue v)).
  { unfold counterValue. by rewrite Hv. }
  assert (Hr2 :
    (if decide (k ∈ histogramMetricNames names /\ is_Some (histogramOf body k))
     then histogramOf body k
     else if decide (k ∈ counterGaugeMetricNames names /\ is_Some (counterOf body k))
          then counterOf body k else metricOf c (v1.Name pod) k)
    = Some (metrics.SimpleMetricValue v)).
  { rewrite decide_False by tauto. rewrite decide_True; [done|]. by rewrite Hc. }
  destruct (prometheusApi c); [|exact Hr2].
  rewrite decide_False by tauto. exact Hr2.
Qed.

(** The whole range, over any list of pods. *)
Lemma scrapeAll_effect (l : list v1.Pod) c :
  foldl scrape c l = set_PodMetrics (PodMetrics (foldl scrape c l)) c
  /\ (forall n k, is_Some (metricOf c n k) -> is_Some (metricOf (foldl scrape c l) n k))
  /\ (forall n, n ∉ v1.Name <$> l ->
        PodMetrics (foldl scrape c l) !! n = PodMetrics c !! n)
  /\ (forall n, (forall pod, pod ∈ l -> v1.Name pod = n ->
                   v1.PodIP pod = "" \/ httpGet (metricsURL pod) = None) ->
        forall k, metricOf (foldl scrape c l) n k = metricOf c n k).
Proof.
  revert c. induction l as [|pod l IH]; intros c.
  - simpl. by rewrite set_PodMetrics_id.
  - cbn [foldl]. destruct (IH (scrape c pod)) as (I1 & I2 & I3 & I4).
    destruct (scrapePod_effect c pod) as (S1 & S2 & _).
    split; [|split; [|split]].
    + rewrite I1 at 1. by rewrite S1.
    + intros n k Hk. by apply I2, scrapePod_keeps.
    + intros n Hn. rewrite fmap_cons in Hn. apply not_elem_of_cons in Hn as [Hne Hn].
      rewrite I3 by done. by apply S2.
    + intros n Hfail k. rewrite I4.
      * destruct (decide (n = v1.Name pod)) as [->|Hne].
        -- apply scrapePod_failed, Hfail; [by apply elem_of_cons; left|done].
        -- by apply scrapePod_elsewhere.
      * intros pod' Hin. apply Hfail. by apply elem_of_cons; right.
Qed.

Lemma scrapeAll_counter (l : list v1.Pod) c pod body k v :
  NoDup (v1.Name <$> l) ->
  pod ∈ l ->
  v1.PodIP pod ≠ "" ->
  httpGet (metricsURL pod) = Some body ->
  k ∈ counterGaugeMetricNames names ->
  ParseMetricFromBody body k = Some v ->
  k ∉ histogramMetricNames names ->
  k ∉ prometheusMetricNames names ->
  metricOf (foldl scrape c l) (v1.Name pod) k = Some (metrics.SimpleMetricValue v).
Proof.
  intros Hnd Hin Hip Hget Hk Hv Hh Hp. revert c Hnd Hin.
  induction l as [|pod0 l IH]; intros c Hnd Hin; [by apply elem_of_nil in Hin|].
  rewrite fmap_cons in Hnd. apply NoDup_cons in Hnd as [Hnotin Hnd].
  cbn [foldl]. apply elem_of_cons in Hin as [<-|Hin].
  - destruct (scrapeAll_effect l (scrape c pod)) as (_ & _ & H3 & _).
    unfold metricOf. rewrite H3 by done.
    by apply (scrapePod_counter c pod body k v).
  - by apply IH.
Qed.

Lemma registry_names c :
  registryKeyed c ->
  v1.Name <$> (map_to_list (Pods c)).*2 = (map_to_list (Pods c)).*1.
Proof.
  intros Hc.
  assert (H : forall l : list (string * v1.Pod),
    (forall name pod, (name, pod) ∈ l -> v1.Name pod = name) ->
    v1.Name <$> l.*2 = l.*1).
  { induction l as [|[name pod] l IH]; intros Hl; [done|].
    rewrite !fmap_cons. simpl. f_equal.
    - apply Hl. by apply elem_of_cons; left.
    - apply IH. intros name' pod' Hin. apply Hl. by apply elem_of_cons; right. }
  apply H. intros name pod Hin. apply elem_of_map_to_list in Hin. by apply Hc.
Qed.

Lemma registryKeyed_run events c : registryKeyed c -> registryKeyed (run events c).
Proof.
  revert c. induction events as [|e events IH]; intros c Hc; [done|].
  apply IH, registryKeyed_dispatch, Hc.
Qed.

End RefreshFacts.

(** X18: a metrics refresh changes [PodMetrics] and nothing else; it never
    removes a metric a pod had (a value is kept or overwritten), and it
    leaves alone the metrics stored under a name that no registered pod
    bears -- whatever the endpoints, the parsers and the query backend
    answer. *)
Theorem updatePodMetrics_only_adds (names : MetricNames)
    (httpGet : string -> option string)
    (ParseMetricFromBody : string -> string -> option Z)
    (ParseHistogramFromBody : string -> string -> option (Z * Z * list (string * Z)))
    (promQL : string -> option string) (BuildQuery : string -> gmap string string -> string)
    (promQuery : string -> option string) (c : Cache) :
  let c' := updatePodMetrics names httpGet ParseMetricFromBody ParseHistogramFromBody
              promQL BuildQuery promQuery c in
  c' = set_PodMetrics (PodMetrics c') c
  /\ (forall n k, is_Some (metricOf c n k) -> is_Some (metricOf c' n k))
  /\ (forall n, (forall name pod, Pods c !! name = Some pod -> v1.Name pod ≠ n) ->
        PodMetrics c' !! n = PodMetrics c !! n).
Proof.
  cbv zeta. unfold updatePodMetrics.
  destruct (scrapeAll_effect names httpGet ParseMetricFromBody ParseHistogramFromBody
              promQL BuildQuery promQuery (map_to_list (Pods c)).*2 c)
    as (H1 & H2 & H3 & _).
  split; [exact H1|]. split; [exact H2|].
  intros n Hn. apply H3. intros Hin.
  apply list_elem_of_fmap in Hin as (pod & -> & Hin).
  apply list_elem_of_fmap in Hin as ([name pod'] & -> & Hin).
  apply elem_of_map_to_list in Hin. by apply (Hn name pod').
Qed.

Lemma updatePodMetrics_only_adds_witness :
  let c' := updatePodMetrics sampleNames endpointUp parseSeven histogramNothing
              (tableOf "q") buildPlain queryAnswers servingCache in
  (forall name pod, Pods servingCache !! name = Some pod -> v1.Name pod ≠ "gone")
  /\ PodMetrics c' !! "gone" = PodMetrics servingCache !! "gone"
  /\ Pods c' = Pods servingCache.
Proof.
  cbv zeta.
  assert (Hn : forall name pod,
    Pods servingCache !! name = Some pod -> v1.Name pod ≠ "gone").
  { intros name pod Hp.
    destruct (registryKeyed_run [PodAdded p1; ModelAdapterAdded (loraOn ["p1"])]
                (NewCache None None)
                ltac:(intros ? ?; simpl; by rewrite lookup_empty) name pod Hp) as [-> _].
    intros ->. by vm_compute in Hp. }
  pose proof (updatePodMetrics_only_adds sampleNames endpointUp parseSeven histogramNothing
                (tableOf "q") buildPlain queryAnswers servingCache) as H.
  cbv zeta in H. destruct H as (H1 & _ & H3).
  split; [exact Hn|]. split; [exact (H3 "gone" Hn)|]. by rewrite H1.
Defined.

(** X19: a pod whose scrape fails keeps its metrics. If every registered pod
    of a name has no address or an endpoint that cannot be read, a refresh
    leaves each metric stored under that name as it was. *)
Theorem failed_scrape_keeps_metrics (names : MetricNames)
    (httpGet : string -> option string)
    (ParseMetricFromBody : string -> string -> option Z)
    (ParseHistogramFromBody : string -> string -> option (Z * Z * list (string * Z)))
    (promQL : string -> option string) (BuildQuery : string -> gmap string string -> string)
    (promQuery : string -> option string) (c : Cache) (n k : string) :
  (forall name pod, Pods c !! name = Some pod -> v1.Name pod = n ->
     v1.PodIP pod = "" \/ httpGet (metricsURL pod) = None) ->
  metricOf (updatePodMetrics names httpGet ParseMetricFromBody ParseHistogramFromBody
              promQL BuildQuery promQuery c) n k
  = metricOf c n k.
Proof.
  intros Hfail. unfold updatePodMetrics.
  destruct (scrapeAll_effect names httpGet ParseMetricFromBody ParseHistogramFromBody
              promQL BuildQuery promQuery (map_to_list (Pods c)).*2 c)
    as (_ & _ & _ & H4).
  apply H4. intros pod Hin Hname.
  apply list_elem_of_fmap in Hin as ([name pod'] & -> & Hin).
  apply elem_of_map_to_list in Hin. by apply (Hfail name pod').
Qed.

Lemma failed_scrape_keeps_metrics_witness :
  (forall name pod, Pods servingCache !! name = Some pod -> v1.Name pod = "p1" ->
     v1.PodIP pod = "" \/ endpointDown (metricsURL pod) = None)
  /\ metricOf servingCache "p1" "num_requests_running" = Some (metrics.SimpleMetricValue 0)
  /\ metricOf (updatePodMetrics sampleNames endpointDown parseSeven histogramNothing
                 (tableOf "q") buildPlain queryAnswers servingCache)
              "p1" "num_requests_running"
     = Some (metrics.SimpleMetricValue 0).
Proof.
  assert (Hfail : forall name pod,
    Pods servingCache !! name = Some pod -> v1.Name pod = "p1" ->
    v1.PodIP pod = "" \/ endpointDown (metricsURL pod) = None) by (by right).
  assert (Hold : metricOf servingCache "p1" "num_requests_running"
                 = Some (metrics.SimpleMetricValue 0)) by reflexivity.
  split; [exact Hfail|]. split; [exact Hold|].
  rewrite <- Hold.
  exact (failed_scrape_keeps_metrics sampleNames endpointDown parseSeven histogramNothing
           (tableOf "q") buildPlain queryAnswers servingCache "p1"
           "num_requests_running" Hfail).
Defined.

(** X20: a successful scrape stores what it parsed. For a registered pod
    with an address whose endpoint answers, a counter or gauge name that the
    body yields a value for -- and that is not also a histogram or backend
    metric name -- holds that value after the refresh, in a registry keyed by
    pod name. *)
Theorem scraped_counter_is_stored (names : MetricNames)
    (httpGet : string -> option string)
    (ParseMetricFromBody : string -> string -> option Z)
    (ParseHistogramFromBody : string -> string -> option (Z * Z * list (string * Z)))
    (promQL : string -> option string) (BuildQuery : string -> gmap string string -> string)
    (promQuery : string -> option string) (c : Cache)
    (pod : v1.Pod) (body k : string) (v : Z) :
  registryKeyed c ->
  Pods c !! v1.Name pod = Some pod ->
  v1.PodIP pod ≠ "" ->
  httpGet (metricsURL pod) = Some body ->
  k ∈ counterGaugeMetricNames names ->
  ParseMetricFromBody body k = Some v ->
  k ∉ histogramMetricNames names ->
  k ∉ prometheusMetricNames names ->
  GetPodMetric (v1.Name pod) k
    (updatePodMetrics names httpGet ParseMetricFromBody ParseHistogramFromBody
       promQL BuildQuery promQuery c)
  = inl (metrics.SimpleMetricValue v).
Proof.
  intros Hc Hpod Hip Hget Hk Hv Hh Hp.
  assert (Hm : metricOf (updatePodMetrics names httpGet ParseMetricFromBody
                           ParseHistogramFromBody promQL BuildQuery promQuery c)
                        (v1.Name pod) k = Some (metrics.SimpleMetricValue v)).
  { unfold updatePodMetrics.
    apply (scrapeAll_counter names httpGet ParseMetricFromBody ParseHistogramFromBody
             promQL BuildQuery promQuery _ c pod body k v); try done.
    - rewrite registry_names by done. apply NoDup_fst_map_to_list.
    - apply list_elem_of_fmap. exists (v1.Name pod, pod). split; [done|].
      by apply elem_of_map_to_list. }
  unfold GetPodMetric. unfold metricOf in Hm.
  destruct (PodMetrics _ !! v1.Name pod) as [ms|]; simpl in Hm; [|done].
  by rewrite Hm.
Qed.

Lemma scraped_counter_is_stored_witness :
  registryKeyed servingCache
  /\ Pods servingCache !! v1.Name p1 = Some p1
  /\ v1.PodIP p1 ≠ ""
  /\ endpointUp (metricsURL p1) = Some "body"
  /\ "num_requests_running" ∈ counterGaugeMetricNames sampleNames
  /\ parseSeven "body" "num_requests_running" = Some 7
  /\ ("num_requests_running" ∉ histogramMetricNames sampleNames)
  /\ ("num_requests_running" ∉ prometheusMetricNames sampleNames)
  /\ GetPodMetric "p1" "num_requests_running" servingCache
     = inl (metrics.SimpleMetricValue 0)
  /\ GetPodMetric "p1" "num_requests_running"
       (updatePodMetrics sampleNames endpointUp parseSeven histogramNothing
          (tableOf "q") buildPlain queryAnswers servingCache)
     = inl (metrics.SimpleMetricValue 7).
Proof.
  assert (H1 : registryKeyed servingCache).
  { exact (registryKeyed_run [PodAdded p1; ModelAdapterAdded (loraOn ["p1"])]
             (NewCache None None) ltac:(intros ? ?; simpl; by rewrite lookup_empty)). }
  assert (H2 : Pods servingCache !! v1.Name p1 = Some p1) by (by vm_compute).
  assert (H3 : v1.PodIP p1 ≠ "") by done.
  assert (H4 : endpointUp (metricsURL p1) = Some "body") by reflexivity.
  assert (H5 : "num_requests_running" ∈ counterGaugeMetricNames sampleNames)
    by (simpl; set_solver).
  assert (H6 : parseSeven "body" "num_requests_running" = Some 7) by reflexivity.
  assert (H7 : "num_requests_running" ∉ histogramMetricNames sampleNames)
    by (by apply (bool_decide_unpack _); vm_compute).
  assert (H8 : "num_requests_running" ∉ prometheusMetricNames sampleNames)
    by (by apply (bool_decide_unpack _); vm_compute).
  repeat (split; [assumption|]). split; [reflexivity|].
  exact (scraped_counter_is_stored sampleNames endpointUp parseSeven histogramNothing
           (tableOf "q") buildPlain queryAnswers servingCache p1 "body"
           "num_requests_running" 7 H1 H2 H3 H4 H5 H6 H7 H8).
Defined.

(** ** Model metrics *)

Section ModelMetricsFacts.
Variable promQL : string -> option string.
Variable BuildQuery : string -> gmap string string -> string.
Variable promQuery : string -> option string.

Implicit Types (mm : option (gmap string (gmap string string))) (model k : string).

Local Abbreviation entryOf mm model := (default ∅ mm !! model).
Local Abbreviation valueOf mm model k :=
  (match mm with
   | None => None
   | Some m => match m !! model with
               | None => None
               | Some ms => ms !! k
               end
   end).
Local Abbreviation query := (queryModelMetric promQL BuildQuery promQuery).

(** [mm'] has every model entry and every value slot that [mm] has. *)
Local Abbreviation grows mm mm' :=
  ((forall model, is_Some (entryOf mm model) -> is_Some (entryOf mm' model))
   /\ (forall model k, is_Some (valueOf mm model k) -> is_Some (valueOf mm' model k))).

Lemma grows_refl mm : grows mm mm.
Proof. done. Qed.

Lemma grows_trans mm1 mm2 mm3 : grows mm1 mm2 -> grows mm2 mm3 -> grows mm1 mm3.
Proof. intros [A1 A2] [B1 B2]. split; eauto. Qed.

Lemma queryModelMetric_grows k mm model :
  grows mm (query k mm model)
  /\ is_Some (entryOf (query k mm model) model)
  /\ is_Some (query k mm model).
Proof.
  unfold queryModelMetric.
  set (mm1 := default ∅ mm).
  set (mm2 := match mm1 !! model with
              | Some _ => mm1
              | None => <[model := ∅]> mm1
              end).
  assert (H12 : forall model', is_Some (mm1 !! model') -> is_Some (mm2 !! model')).
  { intros model' Hm. unfold mm2. destruct (mm1 !! model) eqn:E; [done|].
    destruct (decide (model = model')) as [->|Hne].
    - rewrite lookup_insert_eq. by eexists.
    - by rewrite lookup_insert_ne. }
  assert (H2m : is_Some (mm2 !! model)).
  { unfold mm2. destruct (mm1 !! model) eqn:E; [by rewrite E|].
    rewrite lookup_insert_eq. by eexists. }
  assert (Hval : forall model' k',
    is_Some (valueOf mm model' k') -> is_Some (valueOf (Some mm2) model' k')).
  { intros model' k' Hv. destruct mm as [m|]; [|by destruct Hv].
    unfold mm2, mm1. simpl. destruct (m !! model') as [ms|] eqn:E'; [|by destruct Hv].
    destruct (m !! model) eqn:E; [by rewrite E'|].
    rewrite lookup_insert_ne by congruence. by rewrite E'. }
  assert (Hkeep : grows mm (Some mm2)) by (split; [exact H12|exact Hval]).
  destruct (promQL k) as [q|]; [|by eauto].
  destruct (promQuery (BuildQuery q (<["model_name" := model]> ∅))) as [result|];
    [|by eauto].
  split; [|split; [|by eexists]].
  - eapply grows_trans; [exact Hkeep|]. simpl. split.
    + intros model' Hm. destruct (decide (model = model')) as [->|Hne].
      * rewrite lookup_insert_eq. by eexists.
      * by rewrite lookup_insert_ne.
    + intros model' k' Hv. destruct (decide (model = model')) as [<-|Hne].
      * rewrite lookup_insert_eq. destruct (mm2 !! model) as [ms|]; [|by destruct Hv].
        simpl. destruct (decide (k = k')) as [->|Hk].
        -- rewrite lookup_insert_eq. by eexists.
        -- by rewrite lookup_insert_ne.
      * by rewrite lookup_insert_ne.
  - simpl. rewrite lookup_insert_eq. by eexists.
Qed.

Lemma queryModels_grows k (models : list string) mm :
  grows mm (foldl (query k) mm models)
  /\ (forall model, model ∈ models -> is_Some (entryOf (foldl (query k) mm models) model)).
Proof.
  revert mm. induction models as [|model0 models IH]; intros mm.
  - split; [done|]. intros model Hin. by apply elem_of_nil in Hin.
  - cbn [foldl]. destruct (IH (query k mm model0)) as [I1 I2].
    destruct (queryModelMetric_grows k mm model0) as (Q1 & Q2 & _).
    split; [by eapply grows_trans|].
    intros model Hin. apply elem_of_cons in Hin as [->|Hin]; [|by apply I2].
    by apply I1.
Qed.

Lemma queryAll_grows (metricNames models : list string) mm :
  grows mm (foldl (fun mm k => foldl (query k) mm models) mm metricNames)
  /\ (metricNames ≠ [] ->
      forall model, model ∈ models ->
        is_Some (entryOf (foldl (fun mm k => foldl (query k) mm models) mm metricNames)
                         model)).
Proof.
  revert mm. induction metricNames as [|k ks IH]; intros mm.
  - split; [done|]. done.
  - cbn [foldl]. destruct (IH (foldl (query k) mm models)) as [I1 I2].
    destruct (queryModels_grows k models mm) as [Q1 Q2].
    split; [by eapply grows_trans|].
    intros _ model Hin. by apply I1, Q2.
Qed.

End ModelMetricsFacts.

(** X21: a model-metrics refresh changes [ModelMetrics] and nothing else,
    and does nothing at all without a metrics backend. With one, it
    allocates the map when it is nil -- no panic -- and afterwards every
    model of [ModelToPodMapping] has an entry; no value that was stored is
    removed, whatever the metric table and the backend answer. *)
Theorem updateModelMetrics_allocates_entries (names : MetricNames)
    (promQL : string -> option string) (BuildQuery : string -> gmap string string -> string)
    (promQuery : string -> option string) (c : Cache) :
  let c' := updateModelMetrics names promQL BuildQuery promQuery c in
  c' = set_ModelMetrics (ModelMetrics c') c
  /\ (prometheusApi c = None -> c' = c)
  /\ (is_Some (prometheusApi c) ->
      forall model, CheckModelExists model c = true ->
        exists mm ms, ModelMetrics c' = Some mm /\ mm !! model = Some ms)
  /\ (forall model k, is_Some (modelMetricOf c model k) ->
                      is_Some (modelMetricOf c' model k)).
Proof.
  cbv zeta. unfold updateModelMetrics.
  destruct (prometheusApi c) as [api|] eqn:Hapi.
  - destruct (queryAll_grows promQL BuildQuery promQuery (prometheusMetricNames names)
                (map_to_list (ModelToPodMapping c)).*1 (ModelMetrics c)) as [[G1 G2] G3].
    set (res := foldl (fun mm metricName =>
                         foldl (queryModelMetric promQL BuildQuery promQuery metricName) mm
                               (map_to_list (ModelToPodMapping c)).*1)
                      (ModelMetrics c) (prometheusMetricNames names)) in *.
    change (ModelMetrics (set_ModelMetrics res c)) with res.
    split; [done|]. split; [done|]. split.
    + intros _ model Hm. apply bool_decide_eq_true in Hm as [pods Hpods].
      specialize (G3 ltac:(done) model).
      destruct G3 as [ms Hms].
      { apply list_elem_of_fmap. exists (model, pods). split; [done|].
        by apply elem_of_map_to_list. }
      destruct res as [mm|].
      * exists mm, ms. split; [done|exact Hms].
      * simpl in Hms. by rewrite lookup_empty in Hms.
    + intros model k Hv. unfold modelMetricOf.
      change (ModelMetrics (set_ModelMetrics res c)) with res.
      apply (G2 model k Hv).
  - split; [by destruct c|]. split; [done|]. split; [|done].
    intros [? ?]. done.
Qed.

Lemma updateModelMetrics_allocates_entries_witness :
  let c := run [PodAdded p1] (NewCache None (Some prom0)) in
  let c' := updateModelMetrics sampleNames (tableOf "q") buildPlain queryAnswers c in
  is_Some (prometheusApi c)
  /\ CheckModelExists "llama" c = true
  /\ ModelMetrics c = None
  /\ (exists mm ms, ModelMetrics c' = Some mm /\ mm !! "llama" = Some ms)
  /\ modelMetricOf c' "llama" "p95_ttft_5m" = Some "0.25"
  /\ updateModelMetrics sampleNames (tableOf "q") buildPlain queryAnswers
       (run [PodAdded p1] (NewCache None None))
     = run [PodAdded p1] (NewCache None None).
Proof.
  cbv zeta.
  assert (Hapi : is_Some (prometheusApi (run [PodAdded p1] (NewCache None (Some prom0)))))
    by (by eexists).
  assert (Hm : CheckModelExists "llama" (run [PodAdded p1] (NewCache None (Some prom0)))
               = true) by (by vm_compute).
  pose proof (updateModelMetrics_allocates_entries sampleNames (tableOf "q") buildPlain
                queryAnswers (run [PodAdded p1] (NewCache None (Some prom0)))) as H.
  pose proof (updateModelMetrics_allocates_entries sampleNames (tableOf "q") buildPlain
                queryAnswers (run [PodAdded p1] (NewCache None None))) as H'.
  cbv zeta in H, H'. destruct H as (_ & _ & H3 & _). destruct H' as (_ & H2' & _).
  split; [exact Hapi|]. split; [exact Hm|]. split; [reflexivity|].
  split; [exact (H3 Hapi "llama" Hm)|]. split; [by_evaluation|].
  exact (H2' eq_refl).
Defined.

(** ** Replays and iteration order *)

(** X22: the loop of [deletePod] over the pod's models gives the same cache
    in whatever order the range over the map hands the models out. *)
Theorem deletePod_loop_order_irrelevant (podName : string) (models : gset string)
    (order : list string) (c : Cache) :
  order ≡ₚ elements models ->
  deleteMappingsOfPod podName order c = deleteMappingsOfPod podName (elements models) c.
Proof. apply deleteMappingsOfPod_Permutation. Qed.

Lemma deletePod_loop_order_irrelevant_witness :
  ["lora-a"; "llama"] ≡ₚ elements ({["llama"; "lora-a"]} : gset string)
  /\ deleteMappingsOfPod "p1" ["lora-a"; "llama"] servingCache
     = deleteMappingsOfPod "p1" (elements ({["llama"; "lora-a"]} : gset string)) servingCache.
Proof.
  assert (Hperm : ["lora-a"; "llama"] ≡ₚ elements ({["llama"; "lora-a"]} : gset string)).
  { apply NoDup_Permutation.
    - apply (bool_decide_unpack _). by vm_compute.
    - apply NoDup_elements.
    - intros x. rewrite elem_of_elements. set_solver. }
  split; [exact Hperm|].
  exact (deletePod_loop_order_irrelevant "p1" {["llama"; "lora-a"]} ["lora-a"; "llama"]
           servingCache Hperm).
Defined.

Lemma addPodAndModelMapping_bound p m c pod :
  Pods c !! p = Some pod ->
  inPodToModel c p m ->
  podOf c m p = Some pod ->
  addPodAndModelMapping p m c = c.
Proof.
  intros Hp Hin Hpod. rewrite (addPodAndModelMapping_known _ _ _ _ Hp).
  unfold inPodToModel in Hin. unfold podOf in Hpod.
  destruct c as [r pr ini subs met mm pods pm p2m m2p rt]. simpl in *.
  unfold set_ModelToPodMapping, set_PodToModelMapping. simpl. f_equal.
  - destruct (p2m !! p) as [models|] eqn:E; simpl in *; [|set_solver].
    apply insert_id. rewrite E. f_equal. set_solver.
  - destruct (m2p !! m) as [ps|] eqn:E; simpl in *; [|done].
    apply insert_id. rewrite E. f_equal. symmetry. by apply insert_id.
Qed.

Lemma addInstances_again m (l l' : list string) c :
  (forall p, p ∈ l' -> p ∈ l) ->
  addInstances m l' (addInstances m l c) = addInstances m l c.
Proof.
  intros Hsub. induction l' as [|p l' IH]; [done|].
  change (addInstances m (p :: l') (addInstances m l c))
    with (addInstances m l' (addPodAndModelMapping p m (addInstances m l c))).
  assert (Hstep : addPodAndModelMapping p m (addInstances m l c) = addInstances m l c).
  { destruct (Pods (addInstances m l c) !! p) as [pod|] eqn:Hp.
    - pose proof Hp as Hp0. rewrite addInstances_Pods in Hp0.
      assert (Hl : p ∈ l) by (apply Hsub; by apply elem_of_cons; left).
      apply (addPodAndModelMapping_bound p m _ pod Hp).
      + apply inPodToModel_addInstances. right. by rewrite Hp0.
      + rewrite podOf_addInstances, decide_True; [done|]. by rewrite Hp0.
    - by apply addPodAndModelMapping_unknown. }
  rewrite Hstep. apply IH. intros q Hq. apply Hsub. by apply elem_of_cons; right.
Qed.

(** X23: a replayed model-adapter add changes nothing: adding the same
    adapter a second time leaves the cache as the first add left it. *)
Theorem addModelAdapter_idempotent (model : modelv1alpha1.ModelAdapter) (c : Cache) :
  addModelAdapter model (addModelAdapter model c) = addModelAdapter model c.
Proof. unfold addModelAdapter. by apply addInstances_again. Qed.

(** X24: a replayed pod delete changes nothing: deleting the same pod a
    second time leaves the cache as the first delete left it. *)
Theorem deletePod_idempotent (pod : v1.Pod) (c : Cache) :
  deletePod pod (deletePod pod c) = deletePod pod c.
Proof.
  destruct (v1.Labels pod !! modelIdentifier) as [m|] eqn:Hl.
  - set (c' := deletePod pod c).
    assert (Hc' : exists r pr ini subs met mm pods pm p2m m2p rt,
      c' = mkCache r pr ini subs met mm (delete (v1.Name pod) pods)
             (delete (v1.Name pod) pm) (delete (v1.Name pod) p2m) m2p rt).
    { unfold c', deletePod. rewrite Hl. unfold set_PodMetrics, set_Pods,
        set_PodToModelMapping. simpl. by repeat eexists. }
    destruct Hc' as (r & pr & ini & subs & met & mm & pods & pm & p2m & m2p & rt & ->).
    unfold deletePod. rewrite Hl. simpl. rewrite lookup_delete_eq.
    unfold set_PodMetrics, set_Pods, set_PodToModelMapping. simpl.
    by rewrite !delete_delete_eq.
  - by rewrite !deletePod_unlabelled.
Qed.
